(** * url_canon: the canonicalizer output buffer and the canonicalizer entry points

    A shallow embedding of [src/url_canon.h].  The header defines the output
    buffer classes [CanonOutputT] and [RawCanonOutputT] in full; they are
    translated here statement by statement.  The component canonicalizers, the
    replacers and the relative resolver are only declared in the header; where
    one of them is needed it is modelled from the written specification and
    marked as such. *)

From stdpp Require Import base tactics option list gmap.
From Stdlib Require Import ZArith Lia.

Local Open Scope Z_scope.

(** ** The C++ [int]

    [int] is a 32-bit two's complement integer.  Arithmetic is written with the
    wrap-around spelled out; every theorem below that depends on a sum or a
    product states the range in which no wrap-around takes place. *)
Module Int32.

Definition INT_MAX : Z := 2 ^ 31 - 1.
Definition INT_MIN : Z := - 2 ^ 31.

Definition in_range (z : Z) : Prop := INT_MIN <= z <= INT_MAX.

Definition wrap (z : Z) : Z := (z + 2 ^ 31) mod 2 ^ 32 - 2 ^ 31.

Definition add (a b : Z) : Z := wrap (a + b).
Definition sub (a b : Z) : Z := wrap (a - b).
Definition mul (a b : Z) : Z := wrap (a * b).

End Int32.

(** ** Results of code that contains a loop

    [Grow] has a [do ... while] loop.  It is run with a step budget:
    [OutOfFuel] means that the loop was still running after [fuel] iterations,
    [Returned a] that the call returned [a]. *)
Inductive outcome (A : Type) : Type :=
| Returned (a : A)
| OutOfFuel.
Arguments Returned {A} a.
Arguments OutOfFuel {A}.

(** ** [template<typename T> class CanonOutputT]

    [buffer_] is a pointer to raw storage: it is modelled as a finite map from
    offsets to the elements that have been stored; an offset that is not in
    the map holds an indeterminate value (fresh [new T[sz]] storage, or the
    uninitialised [fixed_buffer_]).  [buffer_len_] and [cur_len_] are [int]. *)
Record CanonOutputT (T : Type) : Type := mkCanonOutputT {
  buffer_ : gmap Z T;
  buffer_len_ : Z;
  cur_len_ : Z
}.
Arguments mkCanonOutputT {T} buffer_ buffer_len_ cur_len_.
Arguments buffer_ {T} c.
Arguments buffer_len_ {T} c.
Arguments cur_len_ {T} c.

(** [virtual void Resize(int sz) = 0;] the one customisation point of the
    class, implemented by the derived class. *)
Class Resizer (T : Type) : Type :=
  Resize : Z -> CanonOutputT T -> CanonOutputT T.

Module CanonOutput.
Section Methods.
Context {T : Type} `{Resizer T}.

(** [CanonOutputT() : buffer_(NULL), buffer_len_(0), cur_len_(0)] *)
Definition create : CanonOutputT T := mkCanonOutputT ∅ 0 0.

(** [inline char at(int offset) const { return buffer_[offset]; }]: the
    element read, before its conversion to the [char] that is returned. *)
Definition at_ (b : CanonOutputT T) (offset : Z) : option T :=
  buffer_ b !! offset.

(** [inline void set(int offset, int ch) { buffer_[offset] = ch; }]: [ch] is
    the element stored, the argument after its conversion to [T]. *)
Definition set (b : CanonOutputT T) (offset : Z) (ch : T) : CanonOutputT T :=
  mkCanonOutputT (<[offset := ch]> (buffer_ b)) (buffer_len_ b) (cur_len_ b).

(** [inline int length() const { return cur_len_; }] *)
Definition length (b : CanonOutputT T) : Z := cur_len_ b.

(** [int capacity() const { return buffer_len_; }] *)
Definition capacity (b : CanonOutputT T) : Z := buffer_len_ b.

(** [const T* data() const { return buffer_; }] *)
Definition data (b : CanonOutputT T) : gmap Z T := buffer_ b.

(** [void set_length(int new_len) { cur_len_ = new_len; }] *)
Definition set_length (b : CanonOutputT T) (new_len : Z) : CanonOutputT T :=
  mkCanonOutputT (buffer_ b) (buffer_len_ b) new_len.

(** The loop of [Grow]:
<<
  do {
    if (new_len >= (1 << 30))  // Prevent overflow below.
      return false;
    new_len *= 2;
  } while (new_len < buffer_len_ + min_additional);
>>
    [Returned None] is [return false]; [Returned (Some n)] is the exit of
    the loop with [new_len = n]. *)
Fixpoint Grow_loop (fuel : nat) (buffer_len min_additional new_len : Z)
  : outcome (option Z) :=
  match fuel with
  | O => OutOfFuel
  | S fuel' =>
      if Z.shiftl 1 30 <=? new_len then Returned None
      else
        let new_len := Int32.mul new_len 2 in
        if new_len <? Int32.add buffer_len min_additional
        then Grow_loop fuel' buffer_len min_additional new_len
        else Returned (Some new_len)
  end.

(** [bool Grow(int min_additional)] *)
Definition Grow (fuel : nat) (b : CanonOutputT T) (min_additional : Z)
  : outcome (bool * CanonOutputT T) :=
  match Grow_loop fuel (buffer_len_ b) min_additional (buffer_len_ b) with
  | OutOfFuel => OutOfFuel
  | Returned None => Returned (false, b)
  | Returned (Some new_len) => Returned (true, Resize new_len b)
  end.

(** [buffer_[cur_len_] = ch; cur_len_++;] *)
Definition store_at_end (b : CanonOutputT T) (ch : T) : CanonOutputT T :=
  mkCanonOutputT (<[cur_len_ b := ch]> (buffer_ b)) (buffer_len_ b)
                 (Int32.add (cur_len_ b) 1).

(** [void push_back(T ch)] *)
Definition push_back (fuel : nat) (b : CanonOutputT T) (ch : T)
  : outcome (CanonOutputT T) :=
  if cur_len_ b <? buffer_len_ b then Returned (store_at_end b ch)
  else
    match Grow fuel b 1 with
    | OutOfFuel => OutOfFuel
    | Returned (false, b') => Returned b'
    | Returned (true, b') => Returned (store_at_end b' ch)
    end.

(** [for (int i = 0; i < str_len; i++) buffer_[cur_len_ + i] = str[i];]
    run from index [i] over the elements [str[i..]]. *)
Fixpoint copy_in (buf : gmap Z T) (cur_len i : Z) (str : list T) : gmap Z T :=
  match str with
  | [] => buf
  | ch :: str' =>
      copy_in (<[Int32.add cur_len i := ch]> buf) cur_len (Int32.add i 1) str'
  end.

(** The part of [Append] after the capacity check. *)
Definition store_all (b : CanonOutputT T) (str : list T) : CanonOutputT T :=
  mkCanonOutputT (copy_in (buffer_ b) (cur_len_ b) 0 str) (buffer_len_ b)
                 (Int32.add (cur_len_ b) (Z.of_nat (List.length str))).

(** [void Append(const T* str, int str_len)]: [str] is the array of
    [str_len] elements the pointer designates. *)
Definition Append (fuel : nat) (b : CanonOutputT T) (str : list T)
  : outcome (CanonOutputT T) :=
  let str_len := Z.of_nat (List.length str) in
  if buffer_len_ b <? Int32.add (cur_len_ b) str_len then
    match Grow fuel b (Int32.sub (Int32.add (cur_len_ b) str_len) (buffer_len_ b)) with
    | OutOfFuel => OutOfFuel
    | Returned (false, b') => Returned b'
    | Returned (true, b') => Returned (store_all b' str)
    end
  else Returned (store_all b str).

End Methods.
End CanonOutput.

(** ** [template<typename T, int fixed_capacity = 1024> class RawCanonOutputT] *)
Module RawCanonOutputT.
Section Methods.
Context {T : Type}.

(** [memcpy(dst, src, sizeof(T) * n)] on element arrays: the first [n]
    elements of [dst] become those of [src]. *)
Definition memcpy (dst src : gmap Z T) (n : Z) : gmap Z T :=
  filter (λ kv, 0 <= kv.1 < n) src ∪ filter (λ kv, ¬ (0 <= kv.1 < n)) dst.

(** [RawCanonOutputT() : CanonOutputT<T>()
      { buffer_ = fixed_buffer_; buffer_len_ = fixed_capacity; }] *)
Definition create (fixed_capacity : Z) : CanonOutputT T :=
  mkCanonOutputT ∅ fixed_capacity 0.

(** [virtual void Resize(int sz)]:
<<
  T* new_buf = new T[sz];
  memcpy(new_buf, buffer_, sizeof(T) * (cur_len_ < sz ? cur_len_ : sz));
  if (buffer_ != fixed_buffer_)
    delete[] buffer_;
  buffer_ = new_buf;
  buffer_len_ = sz;
>>
    Releasing the old array changes none of the three fields. *)
Definition Resize (sz : Z) (b : CanonOutputT T) : CanonOutputT T :=
  let new_buf : gmap Z T := ∅ in
  let new_buf :=
    memcpy new_buf (buffer_ b) (if cur_len_ b <? sz then cur_len_ b else sz) in
  mkCanonOutputT new_buf sz (cur_len_ b).

#[export] Instance resizer : Resizer T := Resize.

End Methods.
End RawCanonOutputT.

(** ** The contracts stated in the header

    The class invariant, [0 <= length() <= capacity()]. *)
Definition well_formed {T : Type} (b : CanonOutputT T) : Prop :=
  0 <= cur_len_ b <= buffer_len_ b.

(** The comment on [CanonOutputT::Resize]: "This function should update the
    buffer pointer to point to the new buffer, and any old data up to
    |cur_len_| in the buffer must be copied over.  The new size |sz| must be
    larger than buffer_len_." *)
Class ResizeContract (T : Type) `{Resizer T} : Prop := {
  Resize_buffer_len (sz : Z) (b : CanonOutputT T) :
    buffer_len_ b < sz -> buffer_len_ (Resize sz b) = sz;
  Resize_cur_len (sz : Z) (b : CanonOutputT T) :
    buffer_len_ b < sz -> cur_len_ (Resize sz b) = cur_len_ b;
  Resize_copied (sz : Z) (b : CanonOutputT T) (i : Z) :
    buffer_len_ b < sz -> cur_len_ b <= buffer_len_ b -> 0 <= i < cur_len_ b ->
    buffer_ (Resize sz b) !! i = buffer_ b !! i
}.

(** The comment on [set_length]: "This MUST NOT be used to expand the size of
    the buffer beyond capacity()." *)
Definition set_length_allowed {T : Type} (b : CanonOutputT T) (new_len : Z) : Prop :=
  0 <= new_len <= CanonOutput.capacity b.

(** ** Character encodings

    The canonicalizers of the query and of the fragment read UTF-8 or UTF-16
    input and write UTF-8.  The header declares them without a body, and the
    conversion helpers they rest on are not part of the sources.  A code unit
    (a [char] read as [unsigned char], or a 16-bit [wchar_t]) and a code point
    are integers. *)
Module UTF.

(** The two input encodings: the [const char*] overloads take UTF-8, the
    [const wchar_t*] overloads UTF-16. *)
Inductive encoding : Type := UTF8 | UTF16.

Definition kUnicodeReplacementCharacter : Z := 0xFFFD.

Definition between (lo hi c : Z) : bool := (lo <=? c) && (c <=? hi).

(** A Unicode scalar value: a code point that is not a surrogate. *)
Definition is_scalar (cp : Z) : bool :=
  between 0 0x10FFFF cp && negb (between 0xD800 0xDFFF cp).

Definition is_trail (c : Z) : bool := between 0x80 0xBF c.

(** Modelled from the spec: the UTF-8 validator the specification checks the
    fragment output with ("verified via a UTF-8 validator over the output");
    no validator is part of the sources.  It accepts exactly the well-formed
    byte sequences of the Unicode standard: no overlong form, no surrogate,
    nothing above U+10FFFF, no truncated sequence. *)
Fixpoint valid_utf8 (s : list Z) : bool :=
  match s with
  | [] => true
  | b0 :: r0 =>
      if between 0 0x7F b0 then valid_utf8 r0
      else
        match r0 with
        | [] => false
        | b1 :: r1 =>
            if between 0xC2 0xDF b0 then is_trail b1 && valid_utf8 r1
            else
              match r1 with
              | [] => false
              | b2 :: r2 =>
                  if between 0xE0 0xEF b0 then
                    (if b0 =? 0xE0 then between 0xA0 0xBF b1
                     else if b0 =? 0xED then between 0x80 0x9F b1
                     else is_trail b1)
                    && is_trail b2 && valid_utf8 r2
                  else
                    match r2 with
                    | [] => false
                    | b3 :: r3 =>
                        between 0xF0 0xF4 b0
                        && (if b0 =? 0xF0 then between 0x90 0xBF b1
                            else if b0 =? 0xF4 then between 0x80 0x8F b1
                            else is_trail b1)
                        && is_trail b2 && is_trail b3 && valid_utf8 r3
                    end
              end
        end
  end.

(** The result of reading one character: whether the input was well formed,
    the code point (the replacement character when it was not), and the
    number of code units read. *)
Definition invalid_char : bool * Z * nat := (false, kUnicodeReplacementCharacter, 1%nat).

Definition checked (overlong_below cp : Z) (units : nat) : bool * Z * nat :=
  if (overlong_below <=? cp) && is_scalar cp then (true, cp, units) else invalid_char.

(** Modelled from the spec: reading one UTF-8 character with repair ("invalid
    UTF-8 ... sequences" become "the Unicode replacement character"); the
    reader is not part of the sources.  A sequence that is truncated, has a
    wrong trail byte, is overlong, or encodes a surrogate or a value above
    U+10FFFF yields the replacement character and reads one unit. *)
Definition ReadUTF8Char (src : list Z) : bool * Z * nat :=
  match src with
  | [] => invalid_char
  | b0 :: rest =>
      if between 0 0x7F b0 then (true, b0, 1%nat)
      else if between 0xC0 0xDF b0 then
        match rest with
        | b1 :: _ =>
            if is_trail b1
            then checked 0x80
                   (Z.lor (Z.shiftl (Z.land b0 0x1F) 6) (Z.land b1 0x3F)) 2
            else invalid_char
        | _ => invalid_char
        end
      else if between 0xE0 0xEF b0 then
        match rest with
        | b1 :: b2 :: _ =>
            if is_trail b1 && is_trail b2
            then checked 0x800
                   (Z.lor (Z.shiftl (Z.land b0 0x0F) 12)
                      (Z.lor (Z.shiftl (Z.land b1 0x3F) 6) (Z.land b2 0x3F))) 3
            else invalid_char
        | _ => invalid_char
        end
      else if between 0xF0 0xF7 b0 then
        match rest with
        | b1 :: b2 :: b3 :: _ =>
            if is_trail b1 && is_trail b2 && is_trail b3
            then checked 0x10000
                   (Z.lor (Z.shiftl (Z.land b0 0x07) 18)
                      (Z.lor (Z.shiftl (Z.land b1 0x3F) 12)
                         (Z.lor (Z.shiftl (Z.land b2 0x3F) 6) (Z.land b3 0x3F)))) 4
            else invalid_char
        | _ => invalid_char
        end
      else invalid_char
  end.

(** Modelled from the spec: reading one UTF-16 character with repair
    ("malformed UTF-16 surrogate pairs"); the reader is not part of the
    sources.  A lead surrogate followed by a trail surrogate is one character
    of two units; a surrogate on its own yields the replacement character. *)
Definition ReadUTF16Char (src : list Z) : bool * Z * nat :=
  match src with
  | [] => invalid_char
  | u :: rest =>
      if between 0xD800 0xDBFF u then
        match rest with
        | t :: _ =>
            if between 0xDC00 0xDFFF t
            then (true, 0x10000 + Z.shiftl (u - 0xD800) 10 + (t - 0xDC00), 2%nat)
            else invalid_char
        | [] => invalid_char
        end
      else if between 0xDC00 0xDFFF u then invalid_char
      else if between 0 0xFFFF u then (true, u, 1%nat)
      else invalid_char
  end.

Definition ReadUTFChar (enc : encoding) (src : list Z) : bool * Z * nat :=
  match enc with
  | UTF8 => ReadUTF8Char src
  | UTF16 => ReadUTF16Char src
  end.

(** The loop over the input, [for (i = begin; i < end; i++)], in which the
    reader advances [i] past the units it has read: [skip] counts the units
    of the current character that are still to be passed over. *)
Fixpoint decode_from (enc : encoding) (skip : nat) (src : list Z) : list (bool * Z) :=
  match src with
  | [] => []
  | _ :: rest =>
      match skip with
      | S skip' => decode_from enc skip' rest
      | O =>
          let '(ok, cp, units) := ReadUTFChar enc src in
          (ok, cp) :: decode_from enc (units - 1) rest
      end
  end.

Definition decode (enc : encoding) (src : list Z) : list (bool * Z) :=
  decode_from enc 0 src.

(** Modelled from the spec: writing a code point as UTF-8 (the fragment is
    "emitted as UTF-8"); the writer is not part of the sources. *)
Definition AppendUTF8Value (cp : Z) : list Z :=
  if cp <=? 0x7F then [cp]
  else if cp <=? 0x7FF then
    [Z.lor 0xC0 (Z.shiftr cp 6); Z.lor 0x80 (Z.land cp 0x3F)]
  else if cp <=? 0xFFFF then
    [Z.lor 0xE0 (Z.shiftr cp 12);
     Z.lor 0x80 (Z.land (Z.shiftr cp 6) 0x3F);
     Z.lor 0x80 (Z.land cp 0x3F)]
  else
    [Z.lor 0xF0 (Z.shiftr cp 18);
     Z.lor 0x80 (Z.land (Z.shiftr cp 12) 0x3F);
     Z.lor 0x80 (Z.land (Z.shiftr cp 6) 0x3F);
     Z.lor 0x80 (Z.land cp 0x3F)].

(** A code point as UTF-16, the input format of the charset converter. *)
Definition AppendUTF16Value (cp : Z) : list Z :=
  if cp <=? 0xFFFF then [cp]
  else [0xD800 + Z.shiftr (cp - 0x10000) 10; 0xDC00 + Z.land (cp - 0x10000) 0x3FF].

(** The code units of a code point in an input encoding. *)
Definition encode (enc : encoding) (cp : Z) : list Z :=
  match enc with
  | UTF8 => AppendUTF8Value cp
  | UTF16 => AppendUTF16Value cp
  end.

(** What the header asks of the repair (url_canon.h:415-417): "we'll use the
    Unicode replacement character for the confusing bits and copy the rest".
    [repaired enc src chars] says it without a reader: [chars] are the
    characters of [src] in order.  The code units of a scalar value are a
    well-formed character, which is kept and flagged [true]; a code unit at
    which no well-formed character starts is a confusing bit, which is passed
    over alone and stands as U+FFFD, flagged [false]. *)
Inductive repaired (enc : encoding) : list Z -> list (bool * Z) -> Prop :=
| repaired_end : repaired enc [] []
| repaired_copy (cp : Z) (rest : list Z) (chars : list (bool * Z)) :
    is_scalar cp = true ->
    repaired enc rest chars ->
    repaired enc (encode enc cp ++ rest) ((true, cp) :: chars)
| repaired_replace (u : Z) (rest : list Z) (chars : list (bool * Z)) :
    (forall cp tail, is_scalar cp = true -> u :: rest <> encode enc cp ++ tail) ->
    repaired enc rest chars ->
    repaired enc (u :: rest) ((false, kUnicodeReplacementCharacter) :: chars).

(** The repaired characters as UTF-8 and as UTF-16: a well-formed character
    is written in the encoding, a confusing bit as U+FFFD. *)
Definition utf8_of (chars : list (bool * Z)) : list Z :=
  flat_map (fun c : bool * Z => if c.1 then AppendUTF8Value c.2 else [0xEF; 0xBF; 0xBD])
           chars.

Definition utf16_of (chars : list (bool * Z)) : list Z :=
  flat_map (fun c : bool * Z => if c.1 then AppendUTF16Value c.2 else [0xFFFD]) chars.

(** The value of a hexadecimal digit, in either case. *)
Definition hex_value (c : Z) : option Z :=
  if between 48 57 c then Some (c - 48)
  else if between 65 70 c then Some (c - 55)
  else if between 97 102 c then Some (c - 87)
  else None.

(** Modelled from the spec: percent-decoding (the query canonicalizer
    "percent-decodes UTF-16 input"); the decoder is not part of the sources.
    [%XY] with two hexadecimal digits is the one unit [16 * X + Y]; a [%]
    that is not followed by two digits is kept as it is. *)
Fixpoint percent_decode (src : list Z) : list Z :=
  match src with
  | [] => []
  | c :: rest =>
      match rest with
      | h :: l :: rest' =>
          match (if c =? 37 then hex_value h else None), hex_value l with
          | Some a, Some b => (16 * a + b) :: percent_decode rest'
          | _, _ => c :: percent_decode rest
          end
      | _ => c :: percent_decode rest
      end
  end.

(** [%XX], with upper-case hexadecimal digits. *)
Definition hex_digit (d : Z) : Z := if d <? 10 then 48 + d else 55 + d.

Definition AppendEscapedChar (b : Z) : list Z :=
  [37; hex_digit (Z.shiftr b 4); hex_digit (Z.land b 0xF)].

End UTF.

(** ** [url_parse::Component] and [url_parse::Parsed]

    Modelled from the spec: [googleurl/src/url_parse.h] is included by the
    header but is not part of the sources.  A component is "a (offset, length)
    pair denoting a sub-range of a source character sequence, or a sentinel
    meaning absent (offset = -1, length = 0) distinguished from present but
    empty (offset >= 0, length = 0)"; a [Parsed] is the aggregate of the eight
    components. *)
Module url_parse.

(** Modelled from the spec: [url_parse::Component], declared in url_parse.h
    outside the sources; the (offset, length) pair. *)
Record Component : Type := mkComponent { begin : Z; len : Z }.

(** Modelled from the spec: the sentinel of an absent component,
    "offset = -1, length = 0"; its declaration is outside the sources. *)
Definition absent : Component := mkComponent (-1) 0.

(** Modelled from the spec: a component is present, possibly empty, when
    its "offset >= 0"; the test is outside the sources. *)
Definition is_present (c : Component) : bool := 0 <=? begin c.

Definition is_nonempty (c : Component) : bool := is_present c && (0 <? len c).

(** The characters of [spec] a component denotes. *)
Definition slice (spec : list Z) (c : Component) : list Z :=
  take (Z.to_nat (len c)) (drop (Z.to_nat (begin c)) spec).

(** Modelled from the spec: [url_parse::Parsed], declared in url_parse.h
    outside the sources; "an aggregate of up to eight Components". *)
Record Parsed : Type := mkParsed {
  scheme : Component;
  username : Component;
  password : Component;
  host : Component;
  port : Component;
  path : Component;
  query : Component;
  ref : Component
}.

End url_parse.

(** ** [template<typename CHAR> struct URLComponentSource]

    Eight pointers, one per component: a [NULL] pointer is [None]. *)
Module URLComponentSource.

Record t (CHAR : Type) : Type := mk {
  scheme : option (list CHAR);
  username : option (list CHAR);
  password : option (list CHAR);
  host : option (list CHAR);
  port : option (list CHAR);
  path : option (list CHAR);
  query : option (list CHAR);
  ref : option (list CHAR)
}.
Arguments mk {CHAR} _ _ _ _ _ _ _ _.
Arguments scheme {CHAR} _.
Arguments username {CHAR} _.
Arguments password {CHAR} _.
Arguments host {CHAR} _.
Arguments port {CHAR} _.
Arguments path {CHAR} _.
Arguments query {CHAR} _.
Arguments ref {CHAR} _.

(** [URLComponentSource()]: every pointer [NULL], which is no replacement. *)
Definition null {CHAR : Type} : t CHAR :=
  mk None None None None None None None None.

(** [URLComponentSource(const CHAR* default_value)]: every component points
    to the same spec. *)
Definition all {CHAR : Type} (default_value : list CHAR) : t CHAR :=
  mk (Some default_value) (Some default_value) (Some default_value)
     (Some default_value) (Some default_value) (Some default_value)
     (Some default_value) (Some default_value).

End URLComponentSource.

(** ** The canonicalizers that the header only declares

    The functions of this module are declared in [url_canon.h] and defined in
    files that are not part of the sources.  Each is modelled from the
    specification.  [output] is the content of the caller's [CanonOutput],
    its elements up to [length()], and a function returns it with the text it
    appends; what an append does to the buffer itself, growth and its failure
    included, is the matter of the buffer part. *)
Module url_canon.

Import url_parse.

(** The position in the output at which the next character is written,
    [output->length()]. *)
Definition position (output : list Z) : Z := Z.of_nat (List.length output).

(** Modelled from the spec: [CanonicalizeRef], declared at url_canon.h:421 and
    defined outside the sources.  "Fragment: prepends # if non-absent; output
    is deliberately the one exception emitted as UTF-8 regardless of target
    charset, repairing invalid UTF-8/UTF-16 sequences with the Unicode
    replacement character; failure here is advisory only."  The result is the
    success flag, the output and the output component. *)
Definition CanonicalizeRef (enc : UTF.encoding) (spec : list Z) (ref : Component)
    (output : list Z) : bool * list Z * Component :=
  if is_present ref then
    let chars := UTF.decode enc (slice spec ref) in
    let text := flat_map (fun c => UTF.AppendUTF8Value c.2) chars in
    (forallb fst chars, output ++ 35 :: text,
     mkComponent (position output + 1) (position text))
  else (true, output, absent).

(** The embedder's character set converter, [CharsetConverter::
    ConvertFromUTF16]: UTF-16 in, bytes of the target encoding out. *)
Definition CharsetConverter : Type := list Z -> list Z.

(** The bytes of the converted query, those of the escape set written as
    [%XX]. *)
Definition AppendEscaped (should_escape : Z -> bool) (bytes : list Z) : list Z :=
  flat_map (fun b => if should_escape b then UTF.AppendEscapedChar b else [b]) bytes.

(** The text that the query canonicalizer re-encodes: the specification has it
    percent-decode "UTF-16 input"; the 8-bit input is read as it is. *)
Definition query_input (enc : UTF.encoding) (src : list Z) : list Z :=
  match enc with
  | UTF.UTF16 => UTF.percent_decode src
  | UTF.UTF8 => src
  end.

(** Modelled from the spec: [CanonicalizeQuery], declared at url_canon.h:400
    with result type [void] and defined outside the sources.  "Query: prepends
    ? if non-absent; percent-decodes UTF-16 input, re-encodes through an
    externally supplied charset converter (defaulting to UTF-8) using the
    query escape set; invalid input is repaired (replacement character
    substitution) rather than failing."  The header adds that the converter is
    only called if necessary, and that ASCII input needs no conversion.  The
    query escape set is not given by the specification: [should_escape] is the
    table.  The success flags of the reader are dropped: the result is the
    output and the output component. *)
Definition CanonicalizeQuery (should_escape : Z -> bool) (enc : UTF.encoding)
    (spec : list Z) (query : Component) (converter : option CharsetConverter)
    (output : list Z) : list Z * Component :=
  if is_present query then
    let src := query_input enc (slice spec query) in
    let converted :=
      if forallb (UTF.between 0 0x7F) src then src
      else
        let code_points := snd <$> UTF.decode enc src in
        match converter with
        | None => flat_map UTF.AppendUTF8Value code_points
        | Some convert => convert (flat_map UTF.AppendUTF16Value code_points)
        end in
    let text := AppendEscaped should_escape converted in
    (output ++ 63 :: text, mkComponent (position output + 1) (position text))
  else (output, absent).

Definition to_lower (c : Z) : Z := if UTF.between 65 90 c then c + 32 else c.

Definition is_letter (c : Z) : bool := UTF.between 97 122 (to_lower c).

Definition is_scheme_char (c : Z) : bool :=
  is_letter c || UTF.between 48 57 c || (c =? 43) || (c =? 45) || (c =? 46).

(** Modelled from the spec: [CanonicalizeScheme], declared at url_canon.h:269
    and defined outside the sources.  "Lower-cases ASCII scheme characters,
    validates against the scheme grammar (letter followed by
    letters/digits/+/-/.), appends scheme + : to the output.  An empty/absent
    input scheme still emits : alone ... and the call reports failure.  Output
    component spans the scheme text, excluding the colon." *)
Definition CanonicalizeScheme (spec : list Z) (scheme : Component) (output : list Z)
  : bool * list Z * Component :=
  let src := if is_present scheme then slice spec scheme else [] in
  let text := map to_lower src in
  (match src with
   | [] => false
   | c :: rest => is_letter c && forallb is_scheme_char rest
   end,
   output ++ text ++ [58],
   mkComponent (position output) (position text)).

(** The source string of a component inside the canonicalizer, where no
    pointer is [NULL] any more. *)
Definition source_of (p : option (list Z)) : list Z := default [] p.

(** Modelled from the spec: the opaque-path assembler behind
    [CanonicalizePathURL] and [ReplacePathURL], defined outside the sources.
    "Opaque-path: only scheme and the raw, unescaped path component are
    canonicalized; all other components are ignored entirely, even if present
    in the input."  It returns overall success, the output and a new [Parsed]
    "reflecting whatever was actually written". *)
Definition DoCanonicalizePathURL (source : URLComponentSource.t Z) (parsed : Parsed)
    (output : list Z) : bool * list Z * Parsed :=
  let '(success, output, out_scheme) :=
    CanonicalizeScheme (source_of (URLComponentSource.scheme source)) (url_parse.scheme parsed) output in
  let '(output, out_path) :=
    if is_present (url_parse.path parsed) then
      let text := slice (source_of (URLComponentSource.path source)) (url_parse.path parsed) in
      (output ++ text, mkComponent (position output) (position text))
    else (output, absent) in
  (success, output,
   mkParsed out_scheme absent absent absent absent out_path absent absent).

(** [CanonicalizePathURL], declared at url_canon.h:466: every component is
    read from the one spec. *)
Definition CanonicalizePathURL (spec : list Z) (parsed : Parsed) (output : list Z)
  : bool * list Z * Parsed :=
  DoCanonicalizePathURL (URLComponentSource.all spec) parsed output.

(** Modelled from the spec: the choice between the base's component and its
    override.  "null pointer -> keep base value; non-null empty string ->
    delete the component (absent), except where emptiness is itself meaningful
    (host/path keep present-empty semantics)". *)
Definition override (base : list Z) (c : Component) (replacement : option (list Z))
    (empty_is_meaningful : bool) : option (list Z) * Component :=
  match replacement with
  | None => (Some base, c)
  | Some s =>
      (Some s,
       match s with
       | [] => if empty_is_meaningful then mkComponent 0 0 else absent
       | _ => mkComponent 0 (position s)
       end)
  end.

(** "for each component, selects either the base's original slice or the
    override slice": the merged source and its component ranges. *)
Definition SetupOverrideComponents (base : list Z) (base_parsed : Parsed)
    (replacements : URLComponentSource.t Z) : URLComponentSource.t Z * Parsed :=
  let pick c r meaningful := override base (c base_parsed) (r replacements) meaningful in
  let s := pick url_parse.scheme URLComponentSource.scheme false in
  let u := pick url_parse.username URLComponentSource.username false in
  let w := pick url_parse.password URLComponentSource.password false in
  let h := pick url_parse.host URLComponentSource.host true in
  let o := pick url_parse.port URLComponentSource.port false in
  let p := pick url_parse.path URLComponentSource.path true in
  let q := pick url_parse.query URLComponentSource.query false in
  let r := pick url_parse.ref URLComponentSource.ref false in
  (URLComponentSource.mk s.1 u.1 w.1 h.1 o.1 p.1 q.1 r.1,
   mkParsed s.2 u.2 w.2 h.2 o.2 p.2 q.2 r.2).

(** Modelled from the spec: [ReplacePathURL], declared at url_canon.h:558 and
    defined outside the sources.  The replacer "selects either the base's
    original slice or the override slice, then re-runs the appropriate
    assembler (chosen by the base's shape) over this merged source". *)
Definition ReplacePathURL (base : list Z) (base_parsed : Parsed)
    (replacements : URLComponentSource.t Z) (output : list Z)
  : bool * list Z * Parsed :=
  let '(source, parsed) := SetupOverrideComponents base base_parsed replacements in
  DoCanonicalizePathURL source parsed output.

(** Modelled from the spec: the entry check of [ResolveRelativeURL], declared
    at url_canon.h:609 and defined outside the sources.  Resolution "requires
    the base to have a non-empty path (and, unless file-URL, a host) - if not,
    resolution is impossible and the function reports failure while still
    returning the base unchanged as output".  The header has the host "may be
    empty for file URLs".  [resolve] stands for the five merge cases that
    follow the check. *)
Definition ResolveRelativeURL
    (resolve : list Z -> Parsed -> bool -> list Z -> Component -> list Z
               -> bool * list Z * Parsed)
    (base_url : list Z) (base_parsed : Parsed) (base_is_file : bool)
    (relative_url : list Z) (relative_component : Component) (output : list Z)
  : bool * list Z * Parsed :=
  if is_nonempty (url_parse.path base_parsed)
     && (base_is_file || is_nonempty (url_parse.host base_parsed))
  then resolve base_url base_parsed base_is_file relative_url relative_component output
  else (false, output ++ base_url, base_parsed).

End url_canon.

(** ** Concrete inputs

    Buffers and URLs at which the results below are evaluated. *)

(** A stack buffer of four elements holding one: [h]. *)
Definition one_of_four : CanonOutputT Z :=
  mkCanonOutputT {[ 0 := 104 ]} 4 1.

(** A buffer that has grown to the cap and is full. *)
Definition full_at_cap : CanonOutputT Z :=
  mkCanonOutputT ∅ (2 ^ 30) (2 ^ 30).


(** A stack buffer of 1024 elements, the default [fixed_capacity], holding
    1000. *)
Definition nearly_full : CanonOutputT Z :=
  mkCanonOutputT ∅ 1024 1000.

(** [mailto:], parsed: a scheme, and no host and no path. *)
Definition mailto_url : list Z := [109; 97; 105; 108; 116; 111; 58].

Definition mailto_parsed : url_parse.Parsed :=
  url_parse.mkParsed (url_parse.mkComponent 0 6) url_parse.absent url_parse.absent
    url_parse.absent url_parse.absent url_parse.absent url_parse.absent
    url_parse.absent.

(** A resolver body for the cases after the entry check; it is never reached
    from [mailto_parsed]. *)
Definition resolve_keep_base (base_url : list Z) (base_parsed : url_parse.Parsed)
    (base_is_file : bool) (relative_url : list Z)
    (relative_component : url_parse.Component) (output : list Z)
  : bool * list Z * url_parse.Parsed :=
  (true, output ++ base_url ++ url_parse.slice relative_url relative_component,
   base_parsed).

(** ** The buffer as its users see it *)

(** What the user of the class reads back: "Called by the user of this class
    to get the output.  The output will NOT be NULL-terminated.  Call length()
    to get the length."  The elements [data()[0 .. length())], each one
    either stored or indeterminate. *)
Definition output_of {T : Type} (b : CanonOutputT T) : list (option T) :=
  (fun i => CanonOutput.data b !! i) <$> seqZ 0 (CanonOutput.length b).

(** The loop of a caller that writes a string one character at a time,
    [for (int i = 0; i < str_len; i++) output->push_back(str[i]);]. *)
Fixpoint push_back_all {T : Type} `{Resizer T} (fuel : nat) (b : CanonOutputT T)
    (str : list T) : outcome (CanonOutputT T) :=
  match str with
  | [] => Returned b
  | ch :: str' =>
      match CanonOutput.push_back fuel b ch with
      | Returned b' => push_back_all fuel b' str'
      | OutOfFuel => OutOfFuel
      end
  end.

(** Every element that has been stored lies inside the allocated array,
    at an offset in [[0, buffer_len_)]. *)
Definition in_bounds {T : Type} (b : CanonOutputT T) : Prop :=
  forall (i : Z) (x : T), buffer_ b !! i = Some x -> 0 <= i < buffer_len_ b.

(** [c] is the first capacity of the sequence [cap], [2 * cap], [4 * cap], ...
    that holds [need] elements. *)
Definition first_doubling (cap need c : Z) : Prop :=
  exists k : nat,
    c = cap * 2 ^ Z.of_nat k
    /\ need <= c
    /\ (k = 0%nat \/ cap * 2 ^ Z.of_nat (k - 1) < need).

(** A stack buffer of four elements holding three, [abc], with a stale
    element left beyond the length by an earlier [set_length]. *)
Definition three_of_four : CanonOutputT Z :=
  mkCanonOutputT {[ 0 := 97; 1 := 98; 2 := 99; 3 := 122 ]} 4 3.

(** * Properties of the output buffer *)

(** ** Machine arithmetic *)

Lemma shiftl_1_30 : Z.shiftl 1 30 = 2 ^ 30.
Proof. reflexivity. Qed.

Lemma wrap_in_range (z : Z) : Int32.in_range z -> Int32.wrap z = z.
Proof.
  unfold Int32.in_range, Int32.wrap, Int32.INT_MIN, Int32.INT_MAX.
  intros Hz. rewrite Z.mod_small; lia.
Qed.

Lemma wrap_range (z : Z) : Int32.in_range (Int32.wrap z).
Proof.
  unfold Int32.in_range, Int32.wrap, Int32.INT_MIN, Int32.INT_MAX.
  pose proof (Z.mod_pos_bound (z + 2 ^ 31) (2 ^ 32) ltac:(lia)). lia.
Qed.

Lemma add_in_range (a b : Z) : Int32.in_range (a + b) -> Int32.add a b = a + b.
Proof. apply wrap_in_range. Qed.

Lemma sub_in_range (a b : Z) : Int32.in_range (a - b) -> Int32.sub a b = a - b.
Proof. apply wrap_in_range. Qed.

Lemma double_below_cap (n : Z) : 0 <= n < 2 ^ 30 -> Int32.mul n 2 = 2 * n.
Proof.
  intros Hn. unfold Int32.mul. rewrite wrap_in_range; [lia|].
  unfold Int32.in_range, Int32.INT_MIN, Int32.INT_MAX. lia.
Qed.

Lemma pow2_pos (k : nat) : 0 < 2 ^ Z.of_nat k.
Proof. apply Z.pow_pos_nonneg; lia. Qed.

Lemma pow2_succ (k : nat) : 2 ^ Z.of_nat (S k) = 2 * 2 ^ Z.of_nat k.
Proof. rewrite Nat2Z.inj_succ, Z.pow_succ_r; lia. Qed.

(** ** The doubling loop *)

Section GrowLoop.
Variables buffer_len min_additional : Z.

(** One more unit of fuel never changes a result that was already there. *)
Lemma Grow_loop_fuel_mono (fuel extra : nat) (new_len : Z) (r : option Z) :
  CanonOutput.Grow_loop fuel buffer_len min_additional new_len = Returned r -> CanonOutput.Grow_loop (fuel + extra) buffer_len min_additional new_len = Returned r.
Proof.
  revert new_len. induction fuel as [|fuel IH]; intros new_len; simpl; [discriminate|].
  destruct (Z.shiftl 1 30 <=? new_len); [done|].
  destruct (Int32.mul new_len 2 <? Int32.add buffer_len min_additional); [apply IH|done].
Qed.

(** From a positive length the loop is over after at most 31 tests of the
    cap: each round doubles the length, and [2 ^ 30] stops it. *)
Lemma Grow_loop_returns (fuel : nat) (new_len : Z) :
  0 < new_len -> 2 ^ 30 <= new_len * 2 ^ Z.of_nat fuel ->
  exists r, CanonOutput.Grow_loop (S fuel) buffer_len min_additional new_len = Returned r.
Proof.
  revert new_len. induction fuel as [|fuel IH]; intros new_len Hpos Hcap.
  - simpl. rewrite shiftl_1_30.
    destruct (Z.leb_spec (2 ^ 30) new_len) as [_|Hlt]; [eauto|].
    change (2 ^ Z.of_nat 0) with 1 in Hcap. lia.
  - cbn [CanonOutput.Grow_loop]. rewrite shiftl_1_30.
    destruct (Z.leb_spec (2 ^ 30) new_len) as [_|Hlt]; [eauto|].
    rewrite double_below_cap by lia.
    destruct (2 * new_len <? Int32.add buffer_len min_additional); [|eauto].
    apply IH; [lia|]. rewrite pow2_succ in Hcap. lia.
Qed.

(** A length of zero is doubled to zero: the loop never leaves. *)
Lemma Grow_loop_zero (fuel : nat) :
  buffer_len = 0 -> 1 <= min_additional <= Int32.INT_MAX ->
  CanonOutput.Grow_loop fuel buffer_len min_additional 0 = OutOfFuel.
Proof.
  intros -> Hm. induction fuel as [|fuel IH]; [done|].
  cbn [CanonOutput.Grow_loop]. rewrite shiftl_1_30.
  change (2 ^ 30 <=? 0) with false. cbv iota.
  change (Int32.mul 0 2) with 0.
  rewrite add_in_range
    by (unfold Int32.in_range, Int32.INT_MIN, Int32.INT_MAX in *; lia).
  destruct (Z.ltb_spec 0 (0 + min_additional)); [exact IH|lia].
Qed.

Hypothesis Hsum : Int32.in_range (buffer_len + min_additional).

(** What the loop has done when it leaves with a new length. *)
Lemma Grow_loop_success (fuel : nat) (new_len c : Z) :
  0 < new_len ->
  CanonOutput.Grow_loop fuel buffer_len min_additional new_len = Returned (Some c) ->
  exists k : nat,
    c = new_len * 2 ^ Z.of_nat (S k)
    /\ buffer_len + min_additional <= c
    /\ new_len * 2 ^ Z.of_nat k < 2 ^ 30
    /\ forall j : nat, (1 <= j <= k)%nat ->
         new_len * 2 ^ Z.of_nat j < buffer_len + min_additional.
Proof.
  revert new_len. induction fuel as [|fuel IH]; intros new_len Hpos; [discriminate|].
  cbn [CanonOutput.Grow_loop]. rewrite shiftl_1_30.
  destruct (Z.leb_spec (2 ^ 30) new_len) as [|Hlt]; [discriminate|].
  rewrite double_below_cap, add_in_range by (done || lia).
  destruct (Z.ltb_spec (2 * new_len) (buffer_len + min_additional)) as [Hshort|Hfit].
  - intros Hrun. destruct (IH (2 * new_len) ltac:(lia) Hrun) as (k & -> & Hge & Hcap & Hall).
    exists (S k). rewrite !(pow2_succ (S k)), !pow2_succ in *.
    repeat split; try lia.
    intros [|j] Hj; [lia|]. destruct j as [|j].
    + change (2 ^ Z.of_nat 1) with 2. lia.
    + specialize (Hall (S j) ltac:(lia)). rewrite (pow2_succ (S j)). lia.
  - intros [= <-]. exists 0%nat. change (2 ^ Z.of_nat 1) with 2.
    change (2 ^ Z.of_nat 0) with 1. repeat split; try lia.
Qed.

(** What the loop has seen when it leaves with [return false]. *)
Lemma Grow_loop_failure (fuel : nat) (new_len : Z) :
  0 < new_len ->
  CanonOutput.Grow_loop fuel buffer_len min_additional new_len = Returned None ->
  exists k : nat,
    2 ^ 30 <= new_len * 2 ^ Z.of_nat k
    /\ forall j : nat, (1 <= j <= k)%nat ->
         new_len * 2 ^ Z.of_nat j < buffer_len + min_additional.
Proof.
  revert new_len. induction fuel as [|fuel IH]; intros new_len Hpos; [discriminate|].
  cbn [CanonOutput.Grow_loop]. rewrite shiftl_1_30.
  destruct (Z.leb_spec (2 ^ 30) new_len) as [Hge|Hlt].
  - intros _. exists 0%nat. change (2 ^ Z.of_nat 0) with 1. split; [lia|]. lia.
  - rewrite double_below_cap, add_in_range by (done || lia).
    destruct (Z.ltb_spec (2 * new_len) (buffer_len + min_additional)) as [Hshort|Hfit];
      [|discriminate].
    intros Hrun. destruct (IH (2 * new_len) ltac:(lia) Hrun) as (k & Hcap & Hall).
    exists (S k). rewrite pow2_succ. split; [lia|].
    intros [|j] Hj; [lia|]. destruct j as [|j].
    + change (2 ^ Z.of_nat 1) with 2. lia.
    + specialize (Hall (S j) ltac:(lia)). rewrite (pow2_succ (S j)). lia.
Qed.

End GrowLoop.

(** ** [Grow], [push_back] and [Append] *)

Section BufferOperations.
Context {T : Type} `{Resizer T}.

Lemma Grow_at_zero_capacity (fuel : nat) (b : CanonOutputT T) (min_additional : Z) :
  buffer_len_ b = 0 -> 1 <= min_additional <= Int32.INT_MAX ->
  CanonOutput.Grow fuel b min_additional = OutOfFuel.
Proof.
  intros Hcap Hm. unfold CanonOutput.Grow. rewrite Hcap.
  by rewrite Grow_loop_zero.
Qed.

(** With a positive capacity 31 rounds are enough for [Grow] to return,
    whatever is asked for. *)
Lemma Grow_returns (b : CanonOutputT T) (min_additional : Z) :
  0 < buffer_len_ b ->
  exists r, CanonOutput.Grow 31 b min_additional = Returned r.
Proof.
  intros Hpos. unfold CanonOutput.Grow.
  destruct (Grow_loop_returns (buffer_len_ b) min_additional 30 (buffer_len_ b))
    as [[c|] ->]; [done| |eauto..].
  change (2 ^ Z.of_nat 30) with (2 ^ 30). lia.
Qed.

Lemma push_back_returns (b : CanonOutputT T) (ch : T) :
  0 < buffer_len_ b -> exists b', CanonOutput.push_back 31 b ch = Returned b'.
Proof.
  intros Hpos. unfold CanonOutput.push_back.
  destruct (cur_len_ b <? buffer_len_ b); [eauto|].
  destruct (Grow_returns b 1 Hpos) as [[[] b'] ->]; eauto.
Qed.

Lemma Append_returns (b : CanonOutputT T) (str : list T) :
  0 < buffer_len_ b -> exists b', CanonOutput.Append 31 b str = Returned b'.
Proof.
  intros Hpos. unfold CanonOutput.Append.
  destruct (buffer_len_ b <? _); [|eauto].
  destruct (Grow_returns b
    (Int32.sub (Int32.add (cur_len_ b) (Z.of_nat (List.length str))) (buffer_len_ b))
    Hpos) as [[[] b'] ->]; eauto.
Qed.

(** [Grow] returns [false] without touching the object. *)
Lemma Grow_false_unchanged (fuel : nat) (b b' : CanonOutputT T) (min_additional : Z) :
  CanonOutput.Grow fuel b min_additional = Returned (false, b') -> b' = b.
Proof.
  unfold CanonOutput.Grow.
  destruct (CanonOutput.Grow_loop _ _ _ _) as [[c|]|]; congruence.
Qed.

(** [Grow] returns [true] only from a capacity below [2 ^ 30]. *)
Lemma Grow_true_below_cap (fuel : nat) (b b' : CanonOutputT T) (min_additional : Z) :
  CanonOutput.Grow fuel b min_additional = Returned (true, b') ->
  buffer_len_ b < 2 ^ 30.
Proof.
  unfold CanonOutput.Grow. destruct fuel as [|fuel]; [done|].
  cbn [CanonOutput.Grow_loop]. rewrite shiftl_1_30.
  destruct (Z.leb_spec (2 ^ 30) (buffer_len_ b)); [done|lia].
Qed.

(** [Grow] from a positive capacity, in full: the result after as many
    doublings as it takes, or [false] once a length that has reached
    [2 ^ 30] would have to be doubled. *)
Lemma Grow_doubles_until_it_fits (fuel : nat) (b b' : CanonOutputT T)
    (min_additional : Z) (ok : bool) :
  0 < buffer_len_ b ->
  Int32.in_range (buffer_len_ b + min_additional) ->
  CanonOutput.Grow fuel b min_additional = Returned (ok, b') ->
  exists k : nat,
    (forall j : nat, (1 <= j <= k)%nat ->
       buffer_len_ b * 2 ^ Z.of_nat j < buffer_len_ b + min_additional)
    /\ if ok
       then b' = Resize (buffer_len_ b * 2 ^ Z.of_nat (S k)) b
            /\ buffer_len_ b + min_additional <= buffer_len_ b * 2 ^ Z.of_nat (S k)
            /\ buffer_len_ b * 2 ^ Z.of_nat k < 2 ^ 30
       else b' = b /\ 2 ^ 30 <= buffer_len_ b * 2 ^ Z.of_nat k.
Proof.
  intros Hpos Hsum. unfold CanonOutput.Grow.
  destruct (CanonOutput.Grow_loop _ _ _ _) as [[c|]|] eqn:Hloop; [| |done].
  - intros [= <- <-].
    destruct (Grow_loop_success _ _ Hsum _ _ _ Hpos Hloop) as (k & -> & Hfit & Hcap & Hall).
    exists k. eauto.
  - intros [= <- <-].
    destruct (Grow_loop_failure _ _ Hsum _ _ Hpos Hloop) as (k & Hcap & Hall).
    exists k. eauto.
Qed.

(** Below the cap [Grow] does not fail: a positive capacity and a requested
    total of at most [2 ^ 30] elements give [true]. *)
Lemma Grow_succeeds_below_cap (b : CanonOutputT T) (min_additional : Z) :
  0 < buffer_len_ b < 2 ^ 30 ->
  buffer_len_ b + min_additional <= 2 ^ 30 ->
  Int32.INT_MIN <= buffer_len_ b + min_additional ->
  exists b', CanonOutput.Grow 31 b min_additional = Returned (true, b').
Proof.
  intros Hcap Hsum Hlow.
  assert (0 < buffer_len_ b) as Hpos by lia.
  assert (Int32.in_range (buffer_len_ b + min_additional)) as Hrange
    by (unfold Int32.in_range, Int32.INT_MAX; lia).
  destruct (Grow_returns b min_additional Hpos) as [[[] b'] Hrun]; [eauto|].
  destruct (Grow_doubles_until_it_fits _ _ _ _ _ Hpos Hrange Hrun)
    as (k & Hall & _ & Hover).
  destruct k as [|k].
  - change (2 ^ Z.of_nat 0) with 1 in Hover. lia.
  - specialize (Hall (S k) ltac:(lia)). lia.
Qed.

(** The length and capacity [Grow] leaves behind when it returns [true],
    given that [Resize] keeps its contract. *)
Lemma Grow_true_capacity `{!ResizeContract T} (fuel : nat) (b b' : CanonOutputT T)
    (min_additional : Z) :
  0 < buffer_len_ b ->
  Int32.in_range (buffer_len_ b + min_additional) ->
  CanonOutput.Grow fuel b min_additional = Returned (true, b') ->
  cur_len_ b' = cur_len_ b
  /\ buffer_len_ b < buffer_len_ b'
  /\ buffer_len_ b + min_additional <= buffer_len_ b'
  /\ buffer_len_ b' <= Int32.INT_MAX
  /\ (cur_len_ b <= buffer_len_ b ->
      forall i, 0 <= i < cur_len_ b -> buffer_ b' !! i = buffer_ b !! i).
Proof.
  intros Hpos Hsum Hrun.
  destruct (Grow_doubles_until_it_fits _ _ _ _ _ Hpos Hsum Hrun)
    as (k & _ & -> & Hfit & Hcap).
  rewrite pow2_succ in *.
  assert (buffer_len_ b < buffer_len_ b * (2 * 2 ^ Z.of_nat k)) as Hlarger
    by (pose proof (pow2_pos k); nia).
  rewrite Resize_buffer_len, Resize_cur_len by done.
  repeat split; [done|done| |].
  - unfold Int32.INT_MAX. lia.
  - intros Hwf i Hi. by apply Resize_copied.
Qed.

End BufferOperations.

(** ** [RawCanonOutputT::Resize] *)

Section RawResize.
Context {T : Type}.

Lemma memcpy_lookup_copied (dst src : gmap Z T) (n i : Z) :
  0 <= i < n -> RawCanonOutputT.memcpy dst src n !! i = src !! i.
Proof.
  intros Hi. unfold RawCanonOutputT.memcpy.
  destruct (src !! i) as [x|] eqn:Hsrc.
  - apply lookup_union_Some_l, map_lookup_filter_Some. done.
  - apply lookup_union_None. split; apply map_lookup_filter_None; [by left|].
    right. intros x _. simpl. lia.
Qed.

Lemma RawCanonOutputT_Resize_fields (sz : Z) (b : CanonOutputT T) :
  buffer_len_ (RawCanonOutputT.Resize sz b) = sz
  /\ cur_len_ (RawCanonOutputT.Resize sz b) = cur_len_ b.
Proof. done. Qed.

Lemma RawCanonOutputT_Resize_data (sz : Z) (b : CanonOutputT T) (i : Z) :
  cur_len_ b <= sz -> 0 <= i < cur_len_ b ->
  buffer_ (RawCanonOutputT.Resize sz b) !! i = buffer_ b !! i.
Proof.
  intros Hsz Hi. unfold RawCanonOutputT.Resize. cbn [buffer_].
  apply memcpy_lookup_copied.
  destruct (Z.ltb_spec (cur_len_ b) sz); lia.
Qed.

(** The derived class keeps the contract of the virtual function. *)
#[export] Instance RawCanonOutputT_contract :
  ResizeContract T (H := RawCanonOutputT.resizer).
Proof.
  split.
  - done.
  - done.
  - intros sz b i Hsz Hwf Hi. apply RawCanonOutputT_Resize_data; lia.
Qed.

End RawResize.

(** ** Results on the buffer operations *)

Section BufferClaims.
Context {T : Type} `{Resizer T}.


(** C1. At a capacity of zero the doubling loop keeps [new_len] at zero, so
    [Grow(1)] is still running after any number of rounds, and with it
    [push_back] and [Append] on a buffer as the base class constructor leaves
    it: none of them returns success or failure. *)
Theorem Grow_never_returns_at_zero_capacity (fuel : nat) (ch : T) :
  CanonOutput.Grow fuel CanonOutput.create 1 = OutOfFuel
  /\ CanonOutput.push_back fuel CanonOutput.create ch = OutOfFuel
  /\ CanonOutput.Append fuel CanonOutput.create [ch] = OutOfFuel.
Proof.
  assert (CanonOutput.Grow fuel (CanonOutput.create (T := T)) 1 = OutOfFuel) as Hgrow.
  { apply Grow_at_zero_capacity; [done|]. unfold Int32.INT_MAX. lia. }
  split; [exact Hgrow|]. split.
  - unfold CanonOutput.push_back. cbn [CanonOutput.create cur_len_ buffer_len_].
    change (0 <? 0) with false. cbv iota. by rewrite Hgrow.
  - unfold CanonOutput.Append. cbn [CanonOutput.create cur_len_ buffer_len_ List.length].
    change (Int32.add 0 (Z.of_nat 1)) with 1. change (0 <? 1) with true. cbv iota.
    change (Int32.sub 1 0) with 1. by rewrite Hgrow.
Qed.

(** C2. A capacity of zero is below the cap of [2 ^ 30], every doubling of it
    is zero again and so never accommodates a request of one element, and
    [Grow(1)] returns neither [true] nor [false]. *)
Theorem Grow_zero_capacity_never_accommodates (fuel : nat) :
  CanonOutput.capacity (CanonOutput.create (T := T)) < 2 ^ 30
  /\ (forall k : nat,
        Nat.iter k (fun new_len => Int32.mul new_len 2)
                 (CanonOutput.capacity (CanonOutput.create (T := T))) = 0)
  /\ forall r, CanonOutput.Grow fuel (CanonOutput.create (T := T)) 1 <> Returned r.
Proof.
  split; [done|]. split.
  - induction k as [|k IH]; [done|]. by rewrite Nat.iter_succ, IH.
  - intros r. rewrite Grow_at_zero_capacity; [done|done|]. unfold Int32.INT_MAX. lia.
Qed.

(** C3, as the code has it.  [set_length] makes no check: it stores the new
    length, and leaves the capacity and every stored element as they were, so
    the elements at offsets [[0, new_len)] are unchanged.  Its documented
    limit is the capacity, not the current length: within that limit the
    result is a well-formed buffer. *)
Theorem set_length_stores_the_new_length (b : CanonOutputT T) (new_len : Z) :
  CanonOutput.length (CanonOutput.set_length b new_len) = new_len
  /\ CanonOutput.capacity (CanonOutput.set_length b new_len) = CanonOutput.capacity b
  /\ (forall i, CanonOutput.at_ (CanonOutput.set_length b new_len) i = CanonOutput.at_ b i)
  /\ (set_length_allowed b new_len -> well_formed (CanonOutput.set_length b new_len)).
Proof. done. Qed.

(** C9. When [Grow] returns [false], [push_back] and [Append] return with the
    object as it was: the same length, the same capacity and the same
    elements at every offset. *)
Theorem failed_Grow_drops_the_append (fuel : nat) (b b1 : CanonOutputT T)
    (ch : T) (str : list T) :
  (buffer_len_ b <= cur_len_ b ->
   CanonOutput.Grow fuel b 1 = Returned (false, b1) ->
   exists b', CanonOutput.push_back fuel b ch = Returned b'
     /\ CanonOutput.length b' = CanonOutput.length b
     /\ CanonOutput.capacity b' = CanonOutput.capacity b
     /\ forall i, CanonOutput.at_ b' i = CanonOutput.at_ b i)
  /\ (buffer_len_ b < Int32.add (cur_len_ b) (Z.of_nat (List.length str)) ->
      CanonOutput.Grow fuel b
        (Int32.sub (Int32.add (cur_len_ b) (Z.of_nat (List.length str))) (buffer_len_ b))
        = Returned (false, b1) ->
      exists b', CanonOutput.Append fuel b str = Returned b'
        /\ CanonOutput.length b' = CanonOutput.length b
        /\ CanonOutput.capacity b' = CanonOutput.capacity b
        /\ forall i, CanonOutput.at_ b' i = CanonOutput.at_ b i).
Proof.
  split.
  - intros Hfull Hgrow. exists b.
    unfold CanonOutput.push_back.
    destruct (Z.ltb_spec (cur_len_ b) (buffer_len_ b)); [lia|].
    rewrite Hgrow. by rewrite (Grow_false_unchanged _ _ _ _ Hgrow).
  - intros Hshort Hgrow. exists b.
    unfold CanonOutput.Append.
    destruct (Z.ltb_spec (buffer_len_ b)
                (Int32.add (cur_len_ b) (Z.of_nat (List.length str)))); [|lia].
    rewrite Hgrow. by rewrite (Grow_false_unchanged _ _ _ _ Hgrow).
Qed.

Context `{!ResizeContract T}.






End BufferClaims.

(** C10. For a well-formed buffer and a new size above its capacity,
    [RawCanonOutputT::Resize] leaves a buffer of capacity [sz], of the same
    length, whose first [length()] elements are the previous ones. *)
Theorem RawCanonOutputT_Resize_copies {T : Type} (b : CanonOutputT T) (sz : Z) :
  CanonOutput.capacity b < sz ->
  well_formed b ->
  CanonOutput.capacity (RawCanonOutputT.Resize sz b) = sz
  /\ CanonOutput.length (RawCanonOutputT.Resize sz b) = CanonOutput.length b
  /\ forall i, 0 <= i < CanonOutput.length b ->
       CanonOutput.at_ (RawCanonOutputT.Resize sz b) i = CanonOutput.at_ b i.
Proof.
  unfold CanonOutput.capacity, CanonOutput.length, CanonOutput.at_, well_formed.
  intros Hsz Hwf. split; [done|]. split; [done|].
  intros i Hi. apply RawCanonOutputT_Resize_data; lia.
Qed.

(** ** The buffer results at concrete buffers *)

(** C3, as stated, fails: [set_length(3)] on a buffer of length 1 and capacity
    4 is within the documented limit of [set_length], and it raises the
    declared length from 1 to 3, leaving a well-formed buffer. *)
Lemma set_length_raises_the_length :
  set_length_allowed one_of_four 3
  /\ CanonOutput.length one_of_four = 1
  /\ CanonOutput.length (CanonOutput.set_length one_of_four 3) = 3
  /\ well_formed (CanonOutput.set_length one_of_four 3)
  /\ ~ (forall (b : CanonOutputT Z) (new_len : Z),
          set_length_allowed b new_len -> new_len <= CanonOutput.length b).
Proof.
  assert (set_length_allowed one_of_four 3) as Hallowed by (vm_compute; intuition discriminate).
  split; [exact Hallowed|]. split; [reflexivity|]. split; [reflexivity|].
  split; [vm_compute; intuition discriminate|].
  intros Hall. specialize (Hall one_of_four 3 Hallowed). vm_compute in Hall. by apply Hall.
Qed.

Lemma set_length_stores_the_new_length_witness :
  set_length_allowed one_of_four 3
  /\ well_formed (CanonOutput.set_length one_of_four 3)
  /\ CanonOutput.at_ (CanonOutput.set_length one_of_four 3) 0 = Some 104.
Proof.
  assert (set_length_allowed one_of_four 3) as Hallowed by (vm_compute; intuition discriminate).
  destruct (set_length_stores_the_new_length one_of_four 3) as (_ & _ & Hat & Hwf).
  split; [exact Hallowed|]. split; [exact (Hwf Hallowed)|].
  rewrite Hat. reflexivity.
Defined.



Lemma failed_Grow_drops_the_append_witness :
  buffer_len_ full_at_cap <= cur_len_ full_at_cap
  /\ CanonOutput.Grow (H := RawCanonOutputT.resizer) 1 full_at_cap 1
     = Returned (false, full_at_cap)
  /\ (exists b', CanonOutput.push_back (H := RawCanonOutputT.resizer) 1 full_at_cap 97
                   = Returned b'
       /\ CanonOutput.length b' = CanonOutput.length full_at_cap
       /\ CanonOutput.capacity b' = CanonOutput.capacity full_at_cap
       /\ forall i, CanonOutput.at_ b' i = CanonOutput.at_ full_at_cap i)
  /\ (exists b', CanonOutput.Append (H := RawCanonOutputT.resizer) 1 full_at_cap [97; 98]
                   = Returned b'
       /\ CanonOutput.length b' = CanonOutput.length full_at_cap
       /\ CanonOutput.capacity b' = CanonOutput.capacity full_at_cap
       /\ forall i, CanonOutput.at_ b' i = CanonOutput.at_ full_at_cap i).
Proof.
  destruct (failed_Grow_drops_the_append (H := RawCanonOutputT.resizer)
              1 full_at_cap full_at_cap 97 [97; 98]) as [Hpush Happend].
  split; [vm_compute; discriminate|]. split; [reflexivity|].
  split.
  - apply Hpush; [vm_compute; discriminate|reflexivity].
  - apply Happend; [reflexivity|reflexivity].
Defined.

Lemma RawCanonOutputT_Resize_copies_witness :
  CanonOutput.capacity one_of_four < 8
  /\ well_formed one_of_four
  /\ CanonOutput.capacity (RawCanonOutputT.Resize 8 one_of_four) = 8
  /\ CanonOutput.length (RawCanonOutputT.Resize 8 one_of_four) = 1
  /\ CanonOutput.at_ (RawCanonOutputT.Resize 8 one_of_four) 0 = Some 104.
Proof.
  assert (CanonOutput.capacity one_of_four < 8) as Hsz by reflexivity.
  assert (well_formed one_of_four) as Hwf by (vm_compute; intuition discriminate).
  destruct (RawCanonOutputT_Resize_copies one_of_four 8 Hsz Hwf) as (Hcap & Hlen & Hat).
  split; [exact Hsz|]. split; [exact Hwf|]. split; [exact Hcap|]. split; [exact Hlen|].
  rewrite Hat; [reflexivity|]. vm_compute. intuition discriminate.
Defined.

(** ** What [push_back] and [Append] store *)

Section BufferContents.
Context {T : Type} `{Resizer T} `{!ResizeContract T}.

Lemma copy_in_lookup (str : list T) (buf : gmap Z T) (cur_len i j : Z) :
  0 <= cur_len -> 0 <= i ->
  cur_len + i + Z.of_nat (List.length str) <= Int32.INT_MAX ->
  CanonOutput.copy_in buf cur_len i str !! j
  = if decide (cur_len + i <= j < cur_len + i + Z.of_nat (List.length str))
    then str !! Z.to_nat (j - cur_len - i)
    else buf !! j.
Proof.
  unfold Int32.INT_MAX.
  revert buf i. induction str as [|ch str IH]; intros buf i Hcur Hi Hmax.
  { cbn [CanonOutput.copy_in List.length]. case_decide; [lia|done]. }
  cbn [CanonOutput.copy_in List.length] in *.
  rewrite !add_in_range
    by (unfold Int32.in_range, Int32.INT_MIN, Int32.INT_MAX; lia).
  rewrite IH by lia.
  destruct (decide (j = cur_len + i)) as [->|Hne].
  - rewrite decide_False by lia. rewrite lookup_insert_eq, decide_True by lia.
    by replace (cur_len + i - cur_len - i) with 0 by lia.
  - rewrite lookup_insert_ne by lia.
    repeat case_decide; try lia; [|done].
    replace (Z.to_nat (j - cur_len - i)) with (S (Z.to_nat (j - cur_len - (i + 1))))
      by lia. done.
Qed.

(** What a [push_back] that returns has done: it has dropped the character,
    only when the buffer is full and [Grow] has returned [false], or stored
    it at the end. *)
Lemma push_back_result (fuel : nat) (b b' : CanonOutputT T) (ch : T) :
  well_formed b -> buffer_len_ b <= Int32.INT_MAX ->
  CanonOutput.push_back fuel b ch = Returned b' ->
  (b' = b /\ CanonOutput.length b = CanonOutput.capacity b
   /\ 2 ^ 30 <= CanonOutput.capacity b)
  \/ (CanonOutput.length b' = CanonOutput.length b + 1
      /\ CanonOutput.length b' <= CanonOutput.capacity b'
      /\ CanonOutput.at_ b' (CanonOutput.length b) = Some ch
      /\ forall i, 0 <= i < CanonOutput.length b ->
           CanonOutput.at_ b' i = CanonOutput.at_ b i).
Proof.
  unfold well_formed, Int32.INT_MAX, CanonOutput.length, CanonOutput.capacity,
    CanonOutput.at_.
  intros Hwf Hint. unfold CanonOutput.push_back.
  destruct (Z.ltb_spec (cur_len_ b) (buffer_len_ b)) as [Hroom|Hfull].
  - intros [= <-]. right. cbn [CanonOutput.store_at_end cur_len_ buffer_len_ buffer_].
    rewrite add_in_range
      by (unfold Int32.in_range, Int32.INT_MIN, Int32.INT_MAX; lia).
    split; [done|]. split; [lia|]. split; [by rewrite lookup_insert_eq|].
    intros i Hi. by rewrite lookup_insert_ne by lia.
  - destruct (CanonOutput.Grow fuel b 1) as [[[] b1]|] eqn:Hgrow; [| |done].
    + intros [= <-]. right. pose proof (Grow_true_below_cap _ _ _ _ Hgrow) as Hcap.
      destruct (Z.eq_dec (buffer_len_ b) 0) as [Hzero|Hne].
      { rewrite Grow_at_zero_capacity in Hgrow; [done|done|]. unfold Int32.INT_MAX. lia. }
      destruct (Grow_true_capacity fuel b b1 1) as (Hlen & _ & Hfit & Hmax & Hdata);
        [lia|unfold Int32.in_range, Int32.INT_MIN, Int32.INT_MAX; lia|done|].
      cbn [CanonOutput.store_at_end cur_len_ buffer_len_ buffer_].
      unfold Int32.INT_MAX in Hmax. rewrite Hlen.
      rewrite add_in_range
        by (unfold Int32.in_range, Int32.INT_MIN, Int32.INT_MAX; lia).
      split; [done|]. split; [lia|]. split; [by rewrite lookup_insert_eq|].
      intros i Hi. rewrite lookup_insert_ne by lia. apply Hdata; lia.
    + intros [= <-]. left. rewrite (Grow_false_unchanged _ _ _ _ Hgrow).
      split; [done|]. split; [lia|].
      destruct (Z.le_gt_cases (2 ^ 30) (buffer_len_ b)) as [|Hbelow]; [done|].
      destruct (Z.eq_dec (buffer_len_ b) 0) as [Hzero|Hne].
      { rewrite Grow_at_zero_capacity in Hgrow; [done|done|]. unfold Int32.INT_MAX. lia. }
      assert (Int32.in_range (buffer_len_ b + 1)) as Hrange
        by (unfold Int32.in_range, Int32.INT_MIN, Int32.INT_MAX; lia).
      assert (0 < buffer_len_ b) as Hpos by lia.
      destruct (Grow_doubles_until_it_fits _ _ _ _ _ Hpos Hrange Hgrow)
        as (k & Hall & _ & Hover).
      destruct k as [|k]; [change (2 ^ Z.of_nat 0) with 1 in Hover; lia|].
      specialize (Hall 1%nat ltac:(lia)). change (2 ^ Z.of_nat 1) with 2 in Hall. lia.
Qed.

(** What an [Append] that returns has done: it has dropped the whole string,
    only when [Grow] has returned [false], or stored all of it at the end, in
    order. *)
Lemma Append_result (fuel : nat) (b b' : CanonOutputT T) (str : list T) :
  well_formed b -> buffer_len_ b <= Int32.INT_MAX ->
  cur_len_ b + Z.of_nat (List.length str) <= Int32.INT_MAX ->
  CanonOutput.Append fuel b str = Returned b' ->
  (b' = b /\ CanonOutput.capacity b < CanonOutput.length b + Z.of_nat (List.length str))
  \/ (CanonOutput.length b' = CanonOutput.length b + Z.of_nat (List.length str)
      /\ CanonOutput.length b' <= CanonOutput.capacity b'
      /\ (forall j : nat, (j < List.length str)%nat ->
            CanonOutput.at_ b' (CanonOutput.length b + Z.of_nat j) = str !! j)
      /\ forall i, 0 <= i < CanonOutput.length b ->
           CanonOutput.at_ b' i = CanonOutput.at_ b i).
Proof.
  unfold well_formed, CanonOutput.length, CanonOutput.capacity, CanonOutput.at_.
  intros Hwf Hint Hsum. unfold CanonOutput.Append.
  set (str_len := Z.of_nat (List.length str)) in *.
  assert (0 <= str_len) as Hlen by lia.
  assert (forall b1 : CanonOutputT T,
    cur_len_ b1 = cur_len_ b -> cur_len_ b + str_len <= buffer_len_ b1 ->
    (forall i, 0 <= i < cur_len_ b -> buffer_ b1 !! i = buffer_ b !! i) ->
    cur_len_ (CanonOutput.store_all b1 str) = cur_len_ b + str_len
    /\ cur_len_ (CanonOutput.store_all b1 str) <= buffer_len_ (CanonOutput.store_all b1 str)
    /\ (forall j : nat, (j < List.length str)%nat ->
          buffer_ (CanonOutput.store_all b1 str) !! (cur_len_ b + Z.of_nat j) = str !! j)
    /\ forall i, 0 <= i < cur_len_ b ->
         buffer_ (CanonOutput.store_all b1 str) !! i = buffer_ b !! i) as Hstore.
  { intros b1 Hcur Hfit Hdata.
    cbn [CanonOutput.store_all cur_len_ buffer_len_ buffer_]. fold str_len.
    rewrite Hcur. unfold Int32.INT_MAX in *.
    rewrite add_in_range
      by (unfold Int32.in_range, Int32.INT_MIN, Int32.INT_MAX; lia).
    split; [done|]. split; [lia|]. split.
    - intros j Hj. rewrite copy_in_lookup by (unfold Int32.INT_MAX; lia).
      rewrite decide_True by lia. f_equal. lia.
    - intros i Hi. rewrite copy_in_lookup by (unfold Int32.INT_MAX; lia).
      rewrite decide_False by lia. by apply Hdata. }
  unfold Int32.INT_MAX in *.
  rewrite (add_in_range (cur_len_ b) str_len)
    by (unfold Int32.in_range, Int32.INT_MIN, Int32.INT_MAX; lia).
  destruct (Z.ltb_spec (buffer_len_ b) (cur_len_ b + str_len)) as [Hshort|Hroom].
  - rewrite sub_in_range
      by (unfold Int32.in_range, Int32.INT_MIN, Int32.INT_MAX; lia).
    destruct (CanonOutput.Grow fuel b _) as [[[] b1]|] eqn:Hgrow; [| |done].
    + intros [= <-]. right.
      destruct (Z.eq_dec (buffer_len_ b) 0) as [Hzero|Hne].
      { rewrite Grow_at_zero_capacity in Hgrow; [done|done|]. unfold Int32.INT_MAX. lia. }
      destruct (Grow_true_capacity fuel b b1 (cur_len_ b + str_len - buffer_len_ b))
        as (Hcur & _ & Hfit & _ & Hdata);
        [lia|unfold Int32.in_range, Int32.INT_MIN, Int32.INT_MAX; lia|done|].
      apply Hstore; [done|lia|]. intros i Hi. apply Hdata; lia.
    + intros [= <-]. left. by rewrite (Grow_false_unchanged _ _ _ _ Hgrow).
  - intros [= <-]. right. apply Hstore; [done|lia|done].
Qed.

End BufferContents.

(** X1. The growth policy from a positive capacity, for a request whose end
    offset is an [int]: [Grow] returns within 31 rounds; when it returns [true]
    the new capacity is the old one doubled [k + 1] times, the first doubling
    that accommodates the request, and no length of [2 ^ 30] or more was
    doubled; when it returns [false] the buffer is untouched and a length that
    had reached [2 ^ 30] was still short of the request (or was the capacity
    itself); and a request that ends at or before [2 ^ 30] from a capacity
    below [2 ^ 30] is always granted. *)
Theorem Grow_policy_from_positive_capacity {T : Type} `{Resizer T}
    (b : CanonOutputT T) (min_additional : Z) :
  0 < buffer_len_ b ->
  Int32.in_range (buffer_len_ b + min_additional) ->
  (exists r, CanonOutput.Grow 31 b min_additional = Returned r)
  /\ (forall fuel ok b',
        CanonOutput.Grow fuel b min_additional = Returned (ok, b') ->
        exists k : nat,
          (forall j : nat, (1 <= j <= k)%nat ->
             buffer_len_ b * 2 ^ Z.of_nat j < buffer_len_ b + min_additional)
          /\ if ok
             then b' = Resize (buffer_len_ b * 2 ^ Z.of_nat (S k)) b
                  /\ buffer_len_ b + min_additional <= buffer_len_ b * 2 ^ Z.of_nat (S k)
                  /\ buffer_len_ b * 2 ^ Z.of_nat k < 2 ^ 30
             else b' = b /\ 2 ^ 30 <= buffer_len_ b * 2 ^ Z.of_nat k)
  /\ (buffer_len_ b < 2 ^ 30 -> buffer_len_ b + min_additional <= 2 ^ 30 ->
      exists b', CanonOutput.Grow 31 b min_additional = Returned (true, b')).
Proof.
  intros Hpos Hrange. split; [by apply Grow_returns|]. split.
  - intros fuel ok b' Hrun. by apply (Grow_doubles_until_it_fits fuel b b').
  - intros Hcap Hfit. apply Grow_succeeds_below_cap; [lia|done|].
    unfold Int32.in_range in Hrange. lia.
Qed.

Lemma Grow_policy_from_positive_capacity_witness :
  0 < buffer_len_ nearly_full
  /\ Int32.in_range (buffer_len_ nearly_full + 3000)
  /\ CanonOutput.Grow (H := RawCanonOutputT.resizer) 31 nearly_full 3000
     = Returned (true, RawCanonOutputT.Resize 4096 nearly_full)
  /\ exists k : nat,
       (forall j : nat, (1 <= j <= k)%nat -> 1024 * 2 ^ Z.of_nat j < 1024 + 3000)
       /\ RawCanonOutputT.Resize 4096 nearly_full
          = RawCanonOutputT.Resize (1024 * 2 ^ Z.of_nat (S k)) nearly_full.
Proof.
  assert (0 < buffer_len_ nearly_full) as Hpos by reflexivity.
  assert (Int32.in_range (buffer_len_ nearly_full + 3000)) as Hrange
    by (vm_compute; intuition discriminate).
  assert (CanonOutput.Grow (H := RawCanonOutputT.resizer) 31 nearly_full 3000
          = Returned (true, RawCanonOutputT.Resize 4096 nearly_full)) as Hrun
    by reflexivity.
  destruct (Grow_policy_from_positive_capacity (H := RawCanonOutputT.resizer)
              nearly_full 3000 Hpos Hrange) as (_ & Hpolicy & _).
  destruct (Hpolicy _ _ _ Hrun) as (k & Hall & Heq & _).
  split; [exact Hpos|]. split; [exact Hrange|]. split; [exact Hrun|].
  exists k. split; [exact Hall|exact Heq].
Defined.

(** * The buffer as a list

    [push_back], [Append], [set], [set_length] and [Resize] in terms of the
    output the user reads back. *)

(** ** The first doubling that fits *)

Lemma pow2_mono (j k : nat) : (j <= k)%nat -> 2 ^ Z.of_nat j <= 2 ^ Z.of_nat k.
Proof. intros Hjk. apply Z.pow_le_mono_r; lia. Qed.

Lemma pow2_add (j k : nat) : 2 ^ Z.of_nat (j + k) = 2 ^ Z.of_nat j * 2 ^ Z.of_nat k.
Proof. rewrite Nat2Z.inj_add, Z.pow_add_r; lia. Qed.

Lemma first_doubling_refl (cap need : Z) : need <= cap -> first_doubling cap need cap.
Proof. intros Hfit. exists 0%nat. change (2 ^ Z.of_nat 0) with 1. split; [lia|]. auto. Qed.

Lemma first_doubling_unique (cap need c1 c2 : Z) :
  0 < cap -> first_doubling cap need c1 -> first_doubling cap need c2 -> c1 = c2.
Proof.
  intros Hcap (k1 & -> & Hfit1 & Hmin1) (k2 & -> & Hfit2 & Hmin2).
  destruct (Nat.lt_trichotomy k1 k2) as [Hlt|[->|Hlt]]; [|done|].
  - destruct Hmin2 as [->|Hmin2]; [lia|].
    pose proof (pow2_mono k1 (k2 - 1) ltac:(lia)). nia.
  - destruct Hmin1 as [->|Hmin1]; [lia|].
    pose proof (pow2_mono k2 (k1 - 1) ltac:(lia)). nia.
Qed.

Lemma first_doubling_trans (cap need1 c1 need2 c2 : Z) :
  0 < cap -> need1 <= need2 ->
  first_doubling cap need1 c1 -> first_doubling c1 need2 c2 ->
  first_doubling cap need2 c2.
Proof.
  intros Hcap Hneed (k1 & -> & Hfit1 & Hmin1) (k2 & -> & Hfit2 & Hmin2).
  exists (k1 + k2)%nat. rewrite pow2_add. split; [lia|]. split; [lia|].
  destruct k2 as [|k2].
  - destruct Hmin1 as [->|Hmin1]; [by left|]. right.
    replace (k1 + 0 - 1)%nat with (k1 - 1)%nat by lia. lia.
  - right. destruct Hmin2 as [?|Hmin2]; [lia|].
    replace (k1 + S k2 - 1)%nat with (k1 + (S k2 - 1))%nat by lia.
    rewrite pow2_add. lia.
Qed.

Lemma first_doubling_bounds (cap need c : Z) :
  0 < cap -> first_doubling cap need c ->
  cap <= c /\ need <= c /\ (cap < need -> c < 2 * need).
Proof.
  intros Hcap (k & -> & Hfit & Hmin). pose proof (pow2_pos k).
  split; [nia|]. split; [done|]. intros Hshort.
  destruct Hmin as [->|Hmin]; [change (2 ^ Z.of_nat 0) with 1 in *; lia|].
  destruct k as [|k]; [change (2 ^ Z.of_nat 0) with 1 in *; lia|].
  replace (S k - 1)%nat with k in Hmin by lia. rewrite pow2_succ. lia.
Qed.

(** ** The output of a buffer *)

Section OutputView.
Context {T : Type}.

Lemma length_output_of (b : CanonOutputT T) :
  List.length (output_of b) = Z.to_nat (cur_len_ b).
Proof. unfold output_of. by rewrite length_fmap, length_seqZ. Qed.

Lemma output_of_lookup (b : CanonOutputT T) (j : nat) :
  Z.of_nat j < cur_len_ b -> output_of b !! j = Some (buffer_ b !! Z.of_nat j).
Proof.
  intros Hj. unfold output_of, CanonOutput.length, CanonOutput.data.
  by rewrite list_lookup_fmap, lookup_seqZ_lt.
Qed.

(** Two buffers of the same length that agree below it have the same
    output. *)
Lemma output_of_ext (b1 b2 : CanonOutputT T) :
  cur_len_ b1 = cur_len_ b2 ->
  (forall i, 0 <= i < cur_len_ b1 -> buffer_ b1 !! i = buffer_ b2 !! i) ->
  output_of b1 = output_of b2.
Proof.
  intros Hlen Hdata. unfold output_of, CanonOutput.length, CanonOutput.data.
  rewrite <- Hlen. apply list_eq. intros j. rewrite !list_lookup_fmap.
  destruct (decide (Z.of_nat j < cur_len_ b1)) as [Hj|Hj].
  - rewrite lookup_seqZ_lt by done. cbn. f_equal. apply Hdata. lia.
  - by rewrite lookup_seqZ_ge by lia.
Qed.

(** A buffer that holds [str] after the output of [b] and agrees with [b]
    before it. *)
Lemma output_of_app (b b' : CanonOutputT T) (str : list T) :
  0 <= cur_len_ b ->
  cur_len_ b' = cur_len_ b + Z.of_nat (List.length str) ->
  (forall j : nat, (j < List.length str)%nat ->
     buffer_ b' !! (cur_len_ b + Z.of_nat j) = str !! j) ->
  (forall i, 0 <= i < cur_len_ b -> buffer_ b' !! i = buffer_ b !! i) ->
  output_of b' = output_of b ++ (Some <$> str).
Proof.
  intros Hcur Hlen Hstored Hframe.
  unfold output_of, CanonOutput.length, CanonOutput.data.
  rewrite Hlen, seqZ_app, fmap_app by lia. f_equal.
  - apply list_eq. intros j. rewrite !list_lookup_fmap.
    destruct (decide (Z.of_nat j < cur_len_ b)) as [Hj|Hj].
    + rewrite lookup_seqZ_lt by done. cbn. f_equal. apply Hframe. lia.
    + by rewrite lookup_seqZ_ge by lia.
  - apply list_eq. intros j. rewrite !list_lookup_fmap.
    destruct (decide (j < List.length str)%nat) as [Hj|Hj].
    + rewrite lookup_seqZ_lt by lia. cbn. rewrite Z.add_0_l, Hstored by done.
      destruct (lookup_lt_is_Some_2 str j Hj) as [x ->]. done.
    + rewrite lookup_seqZ_ge by lia. by rewrite (lookup_ge_None_2 str j) by lia.
Qed.

Lemma output_of_set_length (b : CanonOutputT T) (new_len : Z) :
  0 <= new_len <= cur_len_ b ->
  output_of (CanonOutput.set_length b new_len) = take (Z.to_nat new_len) (output_of b).
Proof.
  intros Hlen. unfold output_of, CanonOutput.length, CanonOutput.data.
  cbn [CanonOutput.set_length cur_len_ buffer_].
  replace (cur_len_ b) with (new_len + (cur_len_ b - new_len)) at 1 by lia.
  rewrite seqZ_app, fmap_app by lia.
  rewrite take_app_length'; [done|]. by rewrite length_fmap, length_seqZ.
Qed.

End OutputView.

(** ** One [push_back], one [Append] *)

Section BufferSteps.
Context {T : Type} `{Resizer T}.

(** A request of one element from a capacity below the cap doubles it once. *)
Lemma Grow_one (fuel : nat) (b : CanonOutputT T) :
  0 < buffer_len_ b < 2 ^ 30 ->
  CanonOutput.Grow (S fuel) b 1 = Returned (true, Resize (2 * buffer_len_ b) b).
Proof.
  intros Hcap. unfold CanonOutput.Grow. cbn [CanonOutput.Grow_loop].
  rewrite shiftl_1_30.
  destruct (Z.leb_spec (2 ^ 30) (buffer_len_ b)); [lia|].
  rewrite double_below_cap by lia.
  rewrite add_in_range
    by (unfold Int32.in_range, Int32.INT_MIN, Int32.INT_MAX; lia).
  destruct (Z.ltb_spec (2 * buffer_len_ b) (buffer_len_ b + 1)); [lia|done].
Qed.

Context `{!ResizeContract T}.

Lemma push_back_step (fuel : nat) (b : CanonOutputT T) (ch : T) :
  well_formed b -> 0 < buffer_len_ b -> cur_len_ b < 2 ^ 30 ->
  exists b',
    CanonOutput.push_back (S fuel) b ch = Returned b'
    /\ cur_len_ b' = cur_len_ b + 1
    /\ first_doubling (buffer_len_ b) (cur_len_ b + 1) (buffer_len_ b')
    /\ buffer_ b' !! cur_len_ b = Some ch
    /\ forall i, 0 <= i < cur_len_ b -> buffer_ b' !! i = buffer_ b !! i.
Proof.
  unfold well_formed. intros Hwf Hpos Hlen. unfold CanonOutput.push_back.
  destruct (Z.ltb_spec (cur_len_ b) (buffer_len_ b)) as [Hroom|Hfull].
  - eexists. split; [reflexivity|].
    cbn [CanonOutput.store_at_end cur_len_ buffer_len_ buffer_].
    rewrite add_in_range
      by (unfold Int32.in_range, Int32.INT_MIN, Int32.INT_MAX; lia).
    split; [done|]. split; [apply first_doubling_refl; lia|].
    split; [by rewrite lookup_insert_eq|].
    intros i Hi. by rewrite lookup_insert_ne by lia.
  - assert (cur_len_ b = buffer_len_ b) as Heq by lia.
    rewrite Grow_one by lia.
    assert (buffer_len_ b < 2 * buffer_len_ b) as Hlarger by lia.
    eexists. split; [reflexivity|].
    cbn [CanonOutput.store_at_end cur_len_ buffer_len_ buffer_].
    rewrite Resize_buffer_len, Resize_cur_len by done.
    rewrite add_in_range
      by (unfold Int32.in_range, Int32.INT_MIN, Int32.INT_MAX; lia).
    split; [done|]. split.
    { exists 1%nat. change (2 ^ Z.of_nat 1) with 2.
      change (2 ^ Z.of_nat (1 - 1)) with 1. split; [lia|]. split; [lia|]. right. lia. }
    split; [by rewrite lookup_insert_eq|].
    intros i Hi. rewrite lookup_insert_ne by lia. apply Resize_copied; lia.
Qed.

Lemma Append_step (b : CanonOutputT T) (str : list T) :
  well_formed b -> 0 < buffer_len_ b ->
  cur_len_ b + Z.of_nat (List.length str) <= 2 ^ 30 ->
  exists b',
    CanonOutput.Append 31 b str = Returned b'
    /\ cur_len_ b' = cur_len_ b + Z.of_nat (List.length str)
    /\ first_doubling (buffer_len_ b) (cur_len_ b + Z.of_nat (List.length str))
         (buffer_len_ b')
    /\ (forall j : nat, (j < List.length str)%nat ->
          buffer_ b' !! (cur_len_ b + Z.of_nat j) = str !! j)
    /\ forall i, 0 <= i < cur_len_ b -> buffer_ b' !! i = buffer_ b !! i.
Proof.
  unfold well_formed. intros Hwf Hpos Hsum. unfold CanonOutput.Append.
  set (str_len := Z.of_nat (List.length str)) in *.
  assert (0 <= str_len) as Hlen by lia.
  assert (forall b1 : CanonOutputT T,
    cur_len_ b1 = cur_len_ b ->
    (forall i, 0 <= i < cur_len_ b -> buffer_ b1 !! i = buffer_ b !! i) ->
    cur_len_ (CanonOutput.store_all b1 str) = cur_len_ b + str_len
    /\ buffer_len_ (CanonOutput.store_all b1 str) = buffer_len_ b1
    /\ (forall j : nat, (j < List.length str)%nat ->
          buffer_ (CanonOutput.store_all b1 str) !! (cur_len_ b + Z.of_nat j) = str !! j)
    /\ forall i, 0 <= i < cur_len_ b ->
         buffer_ (CanonOutput.store_all b1 str) !! i = buffer_ b !! i) as Hstore.
  { intros b1 Hcur Hdata.
    cbn [CanonOutput.store_all cur_len_ buffer_len_ buffer_]. fold str_len.
    rewrite Hcur.
    rewrite add_in_range
      by (unfold Int32.in_range, Int32.INT_MIN, Int32.INT_MAX; lia).
    split; [done|]. split; [done|]. split.
    - intros j Hj. rewrite copy_in_lookup by (unfold Int32.INT_MAX; lia).
      rewrite decide_True by lia. f_equal. lia.
    - intros i Hi. rewrite copy_in_lookup by (unfold Int32.INT_MAX; lia).
      rewrite decide_False by lia. by apply Hdata. }
  rewrite (add_in_range (cur_len_ b) str_len)
    by (unfold Int32.in_range, Int32.INT_MIN, Int32.INT_MAX; lia).
  destruct (Z.ltb_spec (buffer_len_ b) (cur_len_ b + str_len)) as [Hshort|Hroom].
  - rewrite sub_in_range
      by (unfold Int32.in_range, Int32.INT_MIN, Int32.INT_MAX; lia).
    set (min_additional := cur_len_ b + str_len - buffer_len_ b).
    assert (Int32.in_range (buffer_len_ b + min_additional)) as Hrange
      by (unfold Int32.in_range, Int32.INT_MIN, Int32.INT_MAX; lia).
    destruct (Grow_succeeds_below_cap b min_additional) as [b1 Hgrow];
      [lia|lia|unfold Int32.INT_MIN; lia|].
    rewrite Hgrow.
    destruct (Grow_doubles_until_it_fits _ _ _ _ _ Hpos Hrange Hgrow)
      as (k & Hall & Hb1 & Hfit & Hcap).
    assert (buffer_len_ b < buffer_len_ b * 2 ^ Z.of_nat (S k)) as Hlarger
      by (rewrite pow2_succ; pose proof (pow2_pos k); nia).
    assert (cur_len_ b1 = cur_len_ b) as Hcur
      by (rewrite Hb1; by apply Resize_cur_len).
    assert (buffer_len_ b1 = buffer_len_ b * 2 ^ Z.of_nat (S k)) as Hlen1
      by (rewrite Hb1; by apply Resize_buffer_len).
    destruct (Hstore b1 Hcur) as (Hc & Hl & Hs & Hf).
    { intros i Hi. rewrite Hb1. apply Resize_copied; lia. }
    eexists. split; [reflexivity|]. split; [done|]. split; [|done].
    rewrite Hl, Hlen1. exists (S k). split; [done|]. split; [lia|]. right.
    replace (S k - 1)%nat with k by lia.
    destruct k as [|k]; [change (2 ^ Z.of_nat 0) with 1; lia|].
    specialize (Hall (S k) ltac:(lia)). unfold min_additional in Hall. lia.
  - destruct (Hstore b eq_refl) as (Hc & Hl & Hs & Hf); [done|].
    eexists. split; [reflexivity|]. split; [done|]. split; [|done].
    rewrite Hl. by apply first_doubling_refl.
Qed.

(** A buffer after a step is well formed again and keeps a positive
    capacity. *)
Lemma step_well_formed (b b' : CanonOutputT T) (need : Z) :
  well_formed b -> 0 < buffer_len_ b -> cur_len_ b <= need ->
  cur_len_ b' = need -> first_doubling (buffer_len_ b) need (buffer_len_ b') ->
  well_formed b' /\ 0 < buffer_len_ b'.
Proof.
  unfold well_formed. intros Hwf Hpos Hneed Hcur Hcap.
  destruct (first_doubling_bounds _ _ _ Hpos Hcap) as (Hge & Hfit & _). lia.
Qed.

Lemma push_back_all_run (str : list T) (b : CanonOutputT T) :
  well_formed b -> 0 < buffer_len_ b ->
  cur_len_ b + Z.of_nat (List.length str) <= 2 ^ 30 ->
  exists b',
    push_back_all 31 b str = Returned b'
    /\ cur_len_ b' = cur_len_ b + Z.of_nat (List.length str)
    /\ first_doubling (buffer_len_ b) (cur_len_ b + Z.of_nat (List.length str))
         (buffer_len_ b')
    /\ (forall j : nat, (j < List.length str)%nat ->
          buffer_ b' !! (cur_len_ b + Z.of_nat j) = str !! j)
    /\ forall i, 0 <= i < cur_len_ b -> buffer_ b' !! i = buffer_ b !! i.
Proof.
  revert b. induction str as [|ch str IH]; intros b Hwf Hpos Hsum.
  { exists b. cbn [push_back_all List.length]. split; [done|]. split; [lia|].
    split; [apply first_doubling_refl; unfold well_formed in Hwf; lia|].
    split; [intros j Hj; cbn in Hj; lia|done]. }
  cbn [List.length] in Hsum.
  destruct (push_back_step 30 b ch Hwf Hpos ltac:(lia))
    as (b1 & Hrun1 & Hcur1 & Hcap1 & Hch & Hframe1).
  destruct (step_well_formed b b1 (cur_len_ b + 1) Hwf Hpos ltac:(lia) Hcur1 Hcap1)
    as [Hwf1 Hpos1].
  destruct (IH b1 Hwf1 Hpos1 ltac:(lia)) as (b' & Hrun & Hcur & Hcap & Hstored & Hframe).
  exists b'. cbn [push_back_all List.length]. rewrite Hrun1.
  split; [done|]. split; [lia|]. split; [|split].
  - replace (cur_len_ b + Z.of_nat (S (List.length str)))
      with (cur_len_ b1 + Z.of_nat (List.length str)) by lia.
    apply (first_doubling_trans _ (cur_len_ b + 1) (buffer_len_ b1)); [done|lia|done|done].
  - intros [|j] Hj.
    + rewrite Z.add_0_r. cbn [lookup list_lookup]. rewrite Hframe; [done|].
      unfold well_formed in Hwf. lia.
    + replace (cur_len_ b + Z.of_nat (S j)) with (cur_len_ b1 + Z.of_nat j) by lia.
      cbn in Hj. rewrite Hstored by lia. done.
  - intros i Hi. rewrite Hframe by lia. by apply Hframe1.
Qed.

(** ** Compositions *)

(** X4. Writing a string character by character with [push_back] and writing
    it at once with [Append] give the same buffer to the user: from a
    well-formed buffer of positive capacity, and up to a total of [2 ^ 30]
    characters, both return, with the same length, the same capacity and the
    same output, which is the old output followed by the string. *)
Theorem push_back_all_is_Append (b : CanonOutputT T) (str : list T) :
  well_formed b -> 0 < CanonOutput.capacity b ->
  CanonOutput.length b + Z.of_nat (List.length str) <= 2 ^ 30 ->
  exists b1 b2,
    push_back_all 31 b str = Returned b1
    /\ CanonOutput.Append 31 b str = Returned b2
    /\ CanonOutput.length b1 = CanonOutput.length b2
    /\ CanonOutput.capacity b1 = CanonOutput.capacity b2
    /\ output_of b1 = output_of b2
    /\ output_of b2 = output_of b ++ (Some <$> str).
Proof.
  unfold CanonOutput.length, CanonOutput.capacity. intros Hwf Hpos Hsum.
  destruct (push_back_all_run str b Hwf Hpos Hsum) as (b1 & Hrun1 & Hcur1 & Hcap1 & Hs1 & Hf1).
  destruct (Append_step b str Hwf Hpos Hsum) as (b2 & Hrun2 & Hcur2 & Hcap2 & Hs2 & Hf2).
  assert (0 <= cur_len_ b) as Hcur by (unfold well_formed in Hwf; lia).
  exists b1, b2. split; [done|]. split; [done|]. split; [lia|].
  split; [by apply (first_doubling_unique _ _ _ _ Hpos Hcap1 Hcap2)|].
  rewrite (output_of_app b b1 str), (output_of_app b b2 str); done.
Qed.

(** X5. Two [Append]s in a row are one [Append] of the concatenation: the
    same length, the same capacity and the same output. *)
Theorem Append_app (b : CanonOutputT T) (s1 s2 : list T) :
  well_formed b -> 0 < CanonOutput.capacity b ->
  CanonOutput.length b + Z.of_nat (List.length s1) + Z.of_nat (List.length s2) <= 2 ^ 30 ->
  exists b1 b2 b12,
    CanonOutput.Append 31 b s1 = Returned b1
    /\ CanonOutput.Append 31 b1 s2 = Returned b2
    /\ CanonOutput.Append 31 b (s1 ++ s2) = Returned b12
    /\ CanonOutput.length b2 = CanonOutput.length b12
    /\ CanonOutput.capacity b2 = CanonOutput.capacity b12
    /\ output_of b2 = output_of b12.
Proof.
  unfold CanonOutput.length, CanonOutput.capacity. intros Hwf Hpos Hsum.
  assert (0 <= cur_len_ b) as Hcur by (unfold well_formed in Hwf; lia).
  destruct (Append_step b s1 Hwf Hpos ltac:(lia)) as (b1 & Hrun1 & Hcur1 & Hcap1 & Hs1 & Hf1).
  destruct (step_well_formed b b1 (cur_len_ b + Z.of_nat (List.length s1))
              Hwf Hpos ltac:(lia) Hcur1 Hcap1) as [Hwf1 Hpos1].
  destruct (Append_step b1 s2 Hwf1 Hpos1 ltac:(lia))
    as (b2 & Hrun2 & Hcur2 & Hcap2 & Hs2 & Hf2).
  destruct (Append_step b (s1 ++ s2) Hwf Hpos ltac:(rewrite length_app; lia))
    as (b12 & Hrun12 & Hcur12 & Hcap12 & Hs12 & Hf12).
  rewrite length_app in Hcur12, Hcap12.
  exists b1, b2, b12. split; [done|]. split; [done|]. split; [done|].
  split; [lia|]. split.
  - apply (first_doubling_unique (buffer_len_ b)
             (cur_len_ b + Z.of_nat (List.length s1 + List.length s2))); [done| |done].
    apply (first_doubling_trans _ (cur_len_ b + Z.of_nat (List.length s1))
             (buffer_len_ b1)); [done|lia|done|].
    by replace (cur_len_ b + Z.of_nat (List.length s1 + List.length s2))
      with (cur_len_ b1 + Z.of_nat (List.length s2)) by lia.
  - rewrite (output_of_app b b12 (s1 ++ s2)) by first [done | rewrite length_app; done].
    rewrite (output_of_app b1 b2 s2), (output_of_app b b1 s1) by (done || lia).
    by rewrite fmap_app, app_assoc.
Qed.

(** X6. Backing up: on a well-formed buffer of positive capacity, after
    [set_length(new_len)] with [0 <= new_len <= length()], an [Append] of a
    string that ends at or below [2 ^ 30] returns and writes over what was cut
    off.  The output is the first [new_len] elements of the old output
    followed by the string, and the capacity stays when the result fits
    it. *)
Theorem set_length_then_Append (b : CanonOutputT T) (new_len : Z) (str : list T) :
  well_formed b -> 0 < CanonOutput.capacity b ->
  0 <= new_len <= CanonOutput.length b ->
  new_len + Z.of_nat (List.length str) <= 2 ^ 30 ->
  exists b',
    CanonOutput.Append 31 (CanonOutput.set_length b new_len) str = Returned b'
    /\ CanonOutput.length b' = new_len + Z.of_nat (List.length str)
    /\ output_of b' = take (Z.to_nat new_len) (output_of b) ++ (Some <$> str)
    /\ (new_len + Z.of_nat (List.length str) <= CanonOutput.capacity b ->
        CanonOutput.capacity b' = CanonOutput.capacity b).
Proof.
  unfold CanonOutput.length, CanonOutput.capacity. intros Hwf Hpos Hlen Hsum.
  assert (well_formed (CanonOutput.set_length b new_len)) as Hwf'
    by (unfold well_formed in *; cbn; lia).
  destruct (Append_step (CanonOutput.set_length b new_len) str Hwf' Hpos Hsum)
    as (b' & Hrun & Hcur & Hcap & Hs & Hf).
  cbn [CanonOutput.set_length cur_len_ buffer_len_ buffer_] in *.
  exists b'. split; [done|]. split; [done|]. split.
  - rewrite <- output_of_set_length by done.
    apply output_of_app; cbn [CanonOutput.set_length cur_len_ buffer_]; [lia|done..].
  - intros Hfit. apply (first_doubling_unique _ _ _ _ Hpos Hcap).
    by apply first_doubling_refl.
Qed.

(** X9. The cost of growth: an [Append] never lowers the capacity, and when
    it had to grow, the new capacity is less than twice the new length, so
    the buffer is more than half full. *)
Theorem Append_capacity_bound (b : CanonOutputT T) (str : list T) :
  well_formed b -> 0 < CanonOutput.capacity b ->
  CanonOutput.length b + Z.of_nat (List.length str) <= 2 ^ 30 ->
  exists b',
    CanonOutput.Append 31 b str = Returned b'
    /\ CanonOutput.capacity b <= CanonOutput.capacity b'
    /\ CanonOutput.length b' <= CanonOutput.capacity b'
    /\ (CanonOutput.capacity b < CanonOutput.length b + Z.of_nat (List.length str) ->
        CanonOutput.capacity b' < 2 * CanonOutput.length b').
Proof.
  unfold CanonOutput.length, CanonOutput.capacity. intros Hwf Hpos Hsum.
  destruct (Append_step b str Hwf Hpos Hsum) as (b' & Hrun & Hcur & Hcap & _).
  destruct (first_doubling_bounds _ _ _ Hpos Hcap) as (Hge & Hfit & Hhalf).
  exists b'. split; [done|]. split; [done|]. split; [lia|].
  intros Hshort. rewrite Hcur. by apply Hhalf.
Qed.

End BufferSteps.

(** ** [push_back] and [Append] from a positive capacity *)

Section BufferTotal.
Context {T : Type} `{Resizer T} `{!ResizeContract T}.

(** X2. From a well-formed buffer of positive capacity [push_back] returns,
    within 31 rounds of the doubling loop.  When the buffer is full at a
    capacity of at least [2 ^ 30] it returns with the buffer as it was, the
    character dropped; in every other case it stores the character at the old
    end: the length goes up by one and stays within the capacity, the
    character is the element at the old length, and the elements before it
    are as they were. *)
Theorem push_back_stores (b : CanonOutputT T) (ch : T) :
  well_formed b -> 0 < CanonOutput.capacity b ->
  CanonOutput.capacity b <= Int32.INT_MAX ->
  exists b',
    CanonOutput.push_back 31 b ch = Returned b'
    /\ ((CanonOutput.length b = CanonOutput.capacity b
         /\ 2 ^ 30 <= CanonOutput.capacity b
         /\ b' = b)
        \/ (~ (CanonOutput.length b = CanonOutput.capacity b
               /\ 2 ^ 30 <= CanonOutput.capacity b)
            /\ CanonOutput.length b' = CanonOutput.length b + 1
            /\ CanonOutput.length b' <= CanonOutput.capacity b'
            /\ CanonOutput.data b' !! CanonOutput.length b = Some ch
            /\ forall i, 0 <= i < CanonOutput.length b ->
                 CanonOutput.data b' !! i = CanonOutput.data b !! i)).
Proof.
  unfold CanonOutput.capacity. intros Hwf Hpos Hint.
  destruct (push_back_returns b ch Hpos) as [b' Hrun]. exists b'. split; [done|].
  destruct (push_back_result 31 b b' ch Hwf Hint Hrun)
    as [(-> & Hfull & Hcap)|(Hlen & Hle & Hat & Hframe)]; [by left|right].
  split; [|done]. unfold CanonOutput.length, CanonOutput.capacity in *.
  intros [Hfull Hcap]. revert Hrun. unfold CanonOutput.push_back, CanonOutput.Grow.
  destruct (Z.ltb_spec (cur_len_ b) (buffer_len_ b)); [lia|].
  cbn [CanonOutput.Grow_loop]. rewrite shiftl_1_30.
  destruct (Z.leb_spec (2 ^ 30) (buffer_len_ b)); [|lia].
  intros [= <-]. lia.
Qed.

(** X3. From a well-formed buffer of positive capacity, and for a string
    whose end offset is an [int], [Append] returns, within 31 rounds of the
    doubling loop.  It drops the whole string, leaving the buffer as it was,
    only when the string does not fit the capacity and ends beyond
    [2 ^ 30]; otherwise it stores all of it at the end, in order: the length
    goes up by the length of the string and stays within the capacity, and
    the elements before it are as they were. *)
Theorem Append_stores (b : CanonOutputT T) (str : list T) :
  well_formed b -> 0 < CanonOutput.capacity b ->
  CanonOutput.capacity b <= Int32.INT_MAX ->
  CanonOutput.length b + Z.of_nat (List.length str) <= Int32.INT_MAX ->
  exists b',
    CanonOutput.Append 31 b str = Returned b'
    /\ ((CanonOutput.capacity b < CanonOutput.length b + Z.of_nat (List.length str)
         /\ 2 ^ 30 < CanonOutput.length b + Z.of_nat (List.length str)
         /\ b' = b)
        \/ (CanonOutput.length b' = CanonOutput.length b + Z.of_nat (List.length str)
            /\ CanonOutput.length b' <= CanonOutput.capacity b'
            /\ (forall j : nat, (j < List.length str)%nat ->
                  CanonOutput.data b' !! (CanonOutput.length b + Z.of_nat j) = str !! j)
            /\ forall i, 0 <= i < CanonOutput.length b ->
                 CanonOutput.data b' !! i = CanonOutput.data b !! i)).
Proof.
  unfold CanonOutput.capacity, CanonOutput.length. intros Hwf Hpos Hint Hsum.
  destruct (Append_returns b str Hpos) as [b' Hrun]. exists b'. split; [done|].
  destruct (Append_result 31 b b' str Hwf Hint Hsum Hrun)
    as [(-> & Hshort)|Hstored]; [left|by right].
  unfold CanonOutput.capacity, CanonOutput.length in Hshort.
  split; [done|]. split; [|done].
  destruct (Z.lt_ge_cases (2 ^ 30) (cur_len_ b + Z.of_nat (List.length str)))
    as [|Hbelow]; [done|].
  destruct (Append_step b str Hwf Hpos Hbelow) as (b2 & Hrun2 & Hlen2 & _).
  rewrite Hrun in Hrun2. injection Hrun2 as <-. unfold well_formed in Hwf. lia.
Qed.

End BufferTotal.

Lemma push_back_stores_witness :
  well_formed one_of_four
  /\ 0 < CanonOutput.capacity one_of_four
  /\ CanonOutput.capacity one_of_four <= Int32.INT_MAX
  /\ exists b',
       CanonOutput.push_back (H := RawCanonOutputT.resizer) 31 one_of_four 105
       = Returned b'
       /\ CanonOutput.length b' = 2
       /\ CanonOutput.data b' !! 1 = Some 105.
Proof.
  assert (well_formed one_of_four) as Hwf by (vm_compute; intuition discriminate).
  assert (0 < CanonOutput.capacity one_of_four) as Hpos by reflexivity.
  assert (CanonOutput.capacity one_of_four <= Int32.INT_MAX) as Hint
    by (vm_compute; discriminate).
  split; [exact Hwf|]. split; [exact Hpos|]. split; [exact Hint|].
  destruct (push_back_stores (H := RawCanonOutputT.resizer) one_of_four 105
              Hwf Hpos Hint) as (b' & Hrun & [(Hfull & _)|(_ & Hlen & _ & Hat & _)]).
  - vm_compute in Hfull. discriminate Hfull.
  - exists b'. split; [exact Hrun|]. split; [exact Hlen|exact Hat].
Defined.

Lemma Append_stores_witness :
  well_formed one_of_four
  /\ 0 < CanonOutput.capacity one_of_four
  /\ CanonOutput.capacity one_of_four <= Int32.INT_MAX
  /\ CanonOutput.length one_of_four + Z.of_nat (List.length [116; 116; 112; 58])
     <= Int32.INT_MAX
  /\ exists b',
       CanonOutput.Append (H := RawCanonOutputT.resizer) 31 one_of_four
         [116; 116; 112; 58] = Returned b'
       /\ CanonOutput.length b' = 5
       /\ CanonOutput.data b' !! 4 = Some 58.
Proof.
  assert (well_formed one_of_four) as Hwf by (vm_compute; intuition discriminate).
  assert (0 < CanonOutput.capacity one_of_four) as Hpos by reflexivity.
  assert (CanonOutput.capacity one_of_four <= Int32.INT_MAX) as Hint
    by (vm_compute; discriminate).
  assert (CanonOutput.length one_of_four + Z.of_nat (List.length [116; 116; 112; 58])
          <= Int32.INT_MAX) as Hsum by (vm_compute; discriminate).
  split; [exact Hwf|]. split; [exact Hpos|]. split; [exact Hint|]. split; [exact Hsum|].
  destruct (Append_stores (H := RawCanonOutputT.resizer) one_of_four
              [116; 116; 112; 58] Hwf Hpos Hint Hsum)
    as (b' & Hrun & [(_ & Hbeyond & _)|(Hlen & _ & Hat & _)]).
  - vm_compute in Hbeyond. discriminate Hbeyond.
  - exists b'. split; [exact Hrun|]. split; [exact Hlen|].
    exact (Hat 3%nat ltac:(vm_compute; lia)).
Defined.

(** ** Writing within the capacity *)

Section WithinCapacity.
Context {T : Type}.

(** The loop of [Append] stores at the offsets [cur_len + i], whatever the
    split between the two. *)
Lemma copy_in_shift (str : list T) (buf : gmap Z T) (c1 i1 c2 i2 : Z) :
  c1 + i1 = c2 + i2 -> 0 <= c1 -> 0 <= i1 -> 0 <= c2 -> 0 <= i2 ->
  c1 + i1 + Z.of_nat (List.length str) <= Int32.INT_MAX ->
  CanonOutput.copy_in buf c1 i1 str = CanonOutput.copy_in buf c2 i2 str.
Proof.
  unfold Int32.INT_MAX.
  revert buf i1 i2.
  induction str as [|ch str IH]; intros buf i1 i2 Heq Hc1 Hi1 Hc2 Hi2 Hmax; [done|].
  cbn [CanonOutput.copy_in List.length] in *.
  rewrite !add_in_range
    by (unfold Int32.in_range, Int32.INT_MIN, Int32.INT_MAX; lia).
  rewrite Heq. apply IH; lia.
Qed.

Lemma push_back_all_within_capacity `{Resizer T} (fuel : nat) (str : list T)
    (b : CanonOutputT T) :
  0 <= cur_len_ b -> buffer_len_ b <= Int32.INT_MAX ->
  cur_len_ b + Z.of_nat (List.length str) <= buffer_len_ b ->
  push_back_all fuel b str = Returned (CanonOutput.store_all b str).
Proof.
  unfold Int32.INT_MAX.
  revert b. induction str as [|ch str IH]; intros b Hcur Hmax Hfit.
  { unfold CanonOutput.store_all. cbn [push_back_all CanonOutput.copy_in List.length].
    rewrite add_in_range
      by (unfold Int32.in_range, Int32.INT_MIN, Int32.INT_MAX; lia).
    rewrite Z.add_0_r. by destruct b. }
  cbn [List.length] in Hfit. cbn [push_back_all]. unfold CanonOutput.push_back.
  destruct (Z.ltb_spec (cur_len_ b) (buffer_len_ b)); [|lia].
  rewrite IH; cbn [CanonOutput.store_at_end cur_len_ buffer_len_ buffer_];
    rewrite ?add_in_range
      by (unfold Int32.in_range, Int32.INT_MIN, Int32.INT_MAX; lia);
    [|lia|lia|lia].
  f_equal. unfold CanonOutput.store_all.
  cbn [CanonOutput.copy_in CanonOutput.store_at_end cur_len_ buffer_len_ buffer_
       List.length].
  rewrite (add_in_range (cur_len_ b) 1), (add_in_range 0 1)
    by (unfold Int32.in_range, Int32.INT_MIN, Int32.INT_MAX; lia).
  rewrite !add_in_range
    by (unfold Int32.in_range, Int32.INT_MIN, Int32.INT_MAX; lia).
  f_equal; [|lia]. rewrite Z.add_0_r.
  apply copy_in_shift; unfold Int32.INT_MAX; lia.
Qed.

(** X7. A string that fits the spare capacity is written without growth:
    whatever the derived class and its [Resize], [Append] and the
    character-by-character loop return the same object without entering the
    doubling loop, the capacity is the old one, and the output is the old
    output followed by the string. *)
Theorem within_capacity_no_growth (b : CanonOutputT T) (str : list T) :
  well_formed b -> CanonOutput.capacity b <= Int32.INT_MAX ->
  CanonOutput.length b + Z.of_nat (List.length str) <= CanonOutput.capacity b ->
  exists b',
    (forall (R : Resizer T) (fuel : nat),
       CanonOutput.Append (H := R) fuel b str = Returned b'
       /\ push_back_all (H := R) fuel b str = Returned b')
    /\ CanonOutput.capacity b' = CanonOutput.capacity b
    /\ CanonOutput.length b' = CanonOutput.length b + Z.of_nat (List.length str)
    /\ output_of b' = output_of b ++ (Some <$> str).
Proof.
  unfold well_formed, CanonOutput.capacity, CanonOutput.length, Int32.INT_MAX.
  intros Hwf Hmax Hfit. exists (CanonOutput.store_all b str).
  assert (cur_len_ (CanonOutput.store_all b str)
          = cur_len_ b + Z.of_nat (List.length str)) as Hlen.
  { cbn [CanonOutput.store_all cur_len_].
    by rewrite add_in_range
      by (unfold Int32.in_range, Int32.INT_MIN, Int32.INT_MAX; lia). }
  split; [|split; [done|split; [done|]]].
  - intros R fuel. split.
    + unfold CanonOutput.Append.
      rewrite add_in_range
        by (unfold Int32.in_range, Int32.INT_MIN, Int32.INT_MAX; lia).
      destruct (Z.ltb_spec (buffer_len_ b) (cur_len_ b + Z.of_nat (List.length str)));
        [lia|done].
    + apply push_back_all_within_capacity; unfold Int32.INT_MAX; lia.
  - apply output_of_app; [lia|done| |].
    + intros j Hj. cbn [CanonOutput.store_all buffer_].
      rewrite copy_in_lookup by (unfold Int32.INT_MAX; lia).
      rewrite decide_True by lia. f_equal. lia.
    + intros i Hi. cbn [CanonOutput.store_all buffer_].
      rewrite copy_in_lookup by (unfold Int32.INT_MAX; lia).
      by rewrite decide_False by lia.
Qed.

(** ** [set] *)

(** X11. [set(offset, ch)] at an offset of the array overwrites one element
    and nothing else: the length and the capacity stay, the element at
    [offset] is the one given, every other element is as before, and the
    output changes at [offset] only.  The offset is not checked against the
    length: at or beyond it the store is made and the output is the same. *)
Theorem set_overwrites_one (b : CanonOutputT T) (offset : Z) (ch : T) :
  0 <= offset < CanonOutput.capacity b ->
  CanonOutput.length (CanonOutput.set b offset ch) = CanonOutput.length b
  /\ CanonOutput.capacity (CanonOutput.set b offset ch) = CanonOutput.capacity b
  /\ CanonOutput.data (CanonOutput.set b offset ch) !! offset = Some ch
  /\ (forall j, j <> offset ->
        CanonOutput.data (CanonOutput.set b offset ch) !! j = CanonOutput.data b !! j)
  /\ output_of (CanonOutput.set b offset ch)
     = <[Z.to_nat offset := Some ch]> (output_of b)
  /\ (CanonOutput.length b <= offset ->
      output_of (CanonOutput.set b offset ch) = output_of b).
Proof.
  intros Hoffset. unfold CanonOutput.data, CanonOutput.set.
  split; [done|]. split; [done|]. cbn [buffer_].
  split; [by rewrite lookup_insert_eq|].
  split; [intros j Hj; by rewrite lookup_insert_ne|].
  assert (output_of (mkCanonOutputT (<[offset := ch]> (buffer_ b)) (buffer_len_ b)
                       (cur_len_ b))
          = <[Z.to_nat offset := Some ch]> (output_of b)) as Hout.
  { unfold output_of, CanonOutput.length, CanonOutput.data. cbn [cur_len_ buffer_].
    apply list_eq. intros j.
    rewrite list_lookup_insert, length_fmap, length_seqZ, !list_lookup_fmap.
    destruct (decide (Z.of_nat j < cur_len_ b)) as [Hj|Hj].
    - rewrite lookup_seqZ_lt by done. cbn. rewrite Z.add_0_l.
      destruct (decide (Z.to_nat offset = j)) as [<-|Hne].
      + rewrite decide_True by lia. rewrite Z2Nat.id by lia.
        by rewrite lookup_insert_eq.
      + rewrite decide_False by lia. by rewrite lookup_insert_ne by lia.
    - rewrite lookup_seqZ_ge by lia. cbn. by rewrite decide_False by lia. }
  split; [exact Hout|]. intros Hbeyond. rewrite Hout.
  apply list_insert_ge. rewrite length_output_of. unfold CanonOutput.length in Hbeyond. lia.
Qed.

(** ** [RawCanonOutputT::Resize], for any size *)

Lemma RawCanonOutputT_Resize_lookup (sz : Z) (b : CanonOutputT T) (i : Z) :
  buffer_ (RawCanonOutputT.Resize sz b) !! i
  = if decide (0 <= i < Z.min (cur_len_ b) sz) then buffer_ b !! i else None.
Proof.
  unfold RawCanonOutputT.Resize. cbn [buffer_].
  assert ((if cur_len_ b <? sz then cur_len_ b else sz) = Z.min (cur_len_ b) sz) as ->
    by (destruct (Z.ltb_spec (cur_len_ b) sz); lia).
  case_decide as Hi; [by apply memcpy_lookup_copied|].
  unfold RawCanonOutputT.memcpy. apply lookup_union_None. split.
  - apply map_lookup_filter_None. right. intros x _. done.
  - by rewrite map_filter_empty.
Qed.

(** X10. [RawCanonOutputT::Resize(sz)] for any size that [new T[sz]] accepts,
    also one that is not larger than the capacity: the new array holds the first
    [min(length, sz)] elements of the old one and nothing else, the capacity
    is [sz], and the length is not touched, so the result is well formed
    exactly when the length is at most [sz].  Growing twice is growing once
    to the final size. *)
Theorem RawCanonOutputT_Resize_any_size (b : CanonOutputT T) (sz : Z) :
  well_formed b -> 0 <= sz ->
  (forall i,
     CanonOutput.data (RawCanonOutputT.Resize sz b) !! i
     = if decide (0 <= i < Z.min (CanonOutput.length b) sz)
       then CanonOutput.data b !! i else None)
  /\ (well_formed (RawCanonOutputT.Resize sz b) <-> CanonOutput.length b <= sz)
  /\ (CanonOutput.length b <= sz ->
      output_of (RawCanonOutputT.Resize sz b) = output_of b)
  /\ (forall sz', 0 <= sz' -> CanonOutput.length b <= sz ->
        RawCanonOutputT.Resize sz' (RawCanonOutputT.Resize sz b)
        = RawCanonOutputT.Resize sz' b).
Proof.
  unfold well_formed, CanonOutput.data, CanonOutput.length. intros Hwf Hnonneg.
  split; [intros i; apply RawCanonOutputT_Resize_lookup|].
  split; [cbn; lia|]. split.
  - intros Hsz. apply output_of_ext; [done|]. intros i Hi.
    rewrite RawCanonOutputT_Resize_lookup.
    cbn [RawCanonOutputT.Resize cur_len_] in Hi. by rewrite decide_True by lia.
  - intros sz' _ Hsz.
    assert (buffer_ (RawCanonOutputT.Resize sz' (RawCanonOutputT.Resize sz b))
            = buffer_ (RawCanonOutputT.Resize sz' b)) as Hbuf.
    { apply map_eq. intros i. rewrite !RawCanonOutputT_Resize_lookup.
      cbn [RawCanonOutputT.Resize cur_len_].
      case_decide as Hi; [|done]. by rewrite decide_True by lia. }
    unfold RawCanonOutputT.Resize in *. cbn [buffer_ cur_len_] in *. by rewrite Hbuf.
Qed.

End WithinCapacity.

(** ** No store outside the array *)

Section InBounds.
Context {T : Type}.

Lemma in_bounds_Resize (sz : Z) (b : CanonOutputT T) :
  in_bounds (RawCanonOutputT.Resize sz b).
Proof.
  intros i x. rewrite RawCanonOutputT_Resize_lookup.
  case_decide as Hi; [|done]. intros _. cbn. lia.
Qed.

Lemma in_bounds_store_all (b : CanonOutputT T) (str : list T) :
  in_bounds b -> 0 <= cur_len_ b ->
  cur_len_ b + Z.of_nat (List.length str) <= buffer_len_ b ->
  buffer_len_ b <= Int32.INT_MAX ->
  in_bounds (CanonOutput.store_all b str).
Proof.
  unfold Int32.INT_MAX. intros Hin Hcur Hfit Hmax i x.
  cbn [CanonOutput.store_all buffer_ buffer_len_].
  rewrite copy_in_lookup by (unfold Int32.INT_MAX; lia).
  case_decide as Hi; [intros _; lia|apply Hin].
Qed.

(** X8. No operation stores outside the allocated array: the constructors
    leave every stored element at an offset in [[0, capacity)], and so do
    [push_back], [Append] (for a string whose end offset is an [int]),
    [RawCanonOutputT::Resize] for any size, [set] at an offset below the
    capacity, and [set_length]. *)
Theorem stores_stay_in_bounds (b : CanonOutputT T) :
  in_bounds b -> well_formed b -> CanonOutput.capacity b <= Int32.INT_MAX ->
  in_bounds (CanonOutput.create (T := T))
  /\ (forall fixed_capacity, in_bounds (RawCanonOutputT.create (T := T) fixed_capacity))
  /\ (forall fuel ch b',
        CanonOutput.push_back (H := RawCanonOutputT.resizer) fuel b ch = Returned b' ->
        in_bounds b')
  /\ (forall fuel str b',
        CanonOutput.length b + Z.of_nat (List.length str) <= Int32.INT_MAX ->
        CanonOutput.Append (H := RawCanonOutputT.resizer) fuel b str = Returned b' ->
        in_bounds b')
  /\ (forall sz, 0 <= sz -> in_bounds (RawCanonOutputT.Resize sz b))
  /\ (forall offset ch, 0 <= offset < CanonOutput.capacity b ->
        in_bounds (CanonOutput.set b offset ch))
  /\ (forall new_len, in_bounds (CanonOutput.set_length b new_len)).
Proof.
  unfold well_formed, CanonOutput.capacity, CanonOutput.length.
  intros Hin Hwf Hmax.
  split; [intros i x; unfold CanonOutput.create; cbn [buffer_]; by rewrite lookup_empty|].
  split; [intros n i x; unfold RawCanonOutputT.create; cbn [buffer_];
          by rewrite lookup_empty|].
  split; [|split; [|split; [|split]]].
  - intros fuel ch b'. unfold CanonOutput.push_back.
    destruct (Z.ltb_spec (cur_len_ b) (buffer_len_ b)) as [Hroom|Hfull].
    + intros [= <-] i x. cbn [CanonOutput.store_at_end buffer_ buffer_len_].
      destruct (decide (i = cur_len_ b)) as [->|Hne]; [intros _; lia|].
      rewrite lookup_insert_ne by done. apply Hin.
    + destruct (CanonOutput.Grow fuel b 1) as [[[] b1]|] eqn:Hgrow; [| |done].
      * intros [= <-] i x.
        pose proof (Grow_true_below_cap _ _ _ _ Hgrow) as Hcap.
        destruct (Z.eq_dec (buffer_len_ b) 0) as [Hzero|Hne].
        { rewrite Grow_at_zero_capacity in Hgrow; [done|done|]. unfold Int32.INT_MAX. lia. }
        assert (0 < buffer_len_ b) as Hpos by lia.
        assert (Int32.in_range (buffer_len_ b + 1)) as Hrange
          by (unfold Int32.in_range, Int32.INT_MIN, Int32.INT_MAX; lia).
        destruct (Grow_true_capacity fuel b b1 1 Hpos Hrange Hgrow)
          as (Hlen & _ & Hfit & _ & _).
        destruct (Grow_doubles_until_it_fits _ _ _ _ _ Hpos Hrange Hgrow)
          as (k & _ & Hb1 & _).
        cbn [CanonOutput.store_at_end buffer_ buffer_len_].
        destruct (decide (i = cur_len_ b1)) as [->|Hne']; [intros _; lia|].
        rewrite lookup_insert_ne by done. rewrite Hb1. apply in_bounds_Resize.
      * intros [= <-]. by rewrite (Grow_false_unchanged _ _ _ _ Hgrow).
  - intros fuel str b' Hsum. unfold CanonOutput.Append, Int32.INT_MAX in *.
    set (str_len := Z.of_nat (List.length str)) in *.
    rewrite (add_in_range (cur_len_ b) str_len)
      by (unfold Int32.in_range, Int32.INT_MIN, Int32.INT_MAX; lia).
    destruct (Z.ltb_spec (buffer_len_ b) (cur_len_ b + str_len)) as [Hshort|Hroom].
    + rewrite sub_in_range
        by (unfold Int32.in_range, Int32.INT_MIN, Int32.INT_MAX; lia).
      destruct (CanonOutput.Grow fuel b _) as [[[] b1]|] eqn:Hgrow; [| |done].
      * intros [= <-].
        destruct (Z.eq_dec (buffer_len_ b) 0) as [Hzero|Hne].
        { rewrite Grow_at_zero_capacity in Hgrow; [done|done|]. unfold Int32.INT_MAX. lia. }
        assert (0 < buffer_len_ b) as Hpos by lia.
        assert (Int32.in_range (buffer_len_ b + (cur_len_ b + str_len - buffer_len_ b)))
          as Hrange by (unfold Int32.in_range, Int32.INT_MIN, Int32.INT_MAX; lia).
        destruct (Grow_true_capacity fuel b b1 _ Hpos Hrange Hgrow)
          as (Hlen & _ & Hfit & Hmax1 & _).
        destruct (Grow_doubles_until_it_fits _ _ _ _ _ Hpos Hrange Hgrow)
          as (k & _ & Hb1 & _).
        apply in_bounds_store_all; [|lia|fold str_len; lia|done].
        rewrite Hb1. apply in_bounds_Resize.
      * intros [= <-]. by rewrite (Grow_false_unchanged _ _ _ _ Hgrow).
    + intros [= <-]. apply in_bounds_store_all; [done|lia|fold str_len; lia|].
      unfold Int32.INT_MAX. lia.
  - intros sz _. apply in_bounds_Resize.
  - intros offset ch Hoffset i x. cbn [CanonOutput.set buffer_ buffer_len_].
    destruct (decide (i = offset)) as [->|Hne]; [intros _; lia|].
    rewrite lookup_insert_ne by done. apply Hin.
  - intros new_len. exact Hin.
Qed.

End InBounds.

(** ** The compositions at concrete buffers *)

Lemma push_back_all_is_Append_witness :
  well_formed three_of_four
  /\ 0 < CanonOutput.capacity three_of_four
  /\ CanonOutput.length three_of_four + Z.of_nat (List.length [100; 101; 102]) <= 2 ^ 30
  /\ exists b1 b2,
       push_back_all (H := RawCanonOutputT.resizer) 31 three_of_four [100; 101; 102]
       = Returned b1
       /\ CanonOutput.Append (H := RawCanonOutputT.resizer) 31 three_of_four
            [100; 101; 102] = Returned b2
       /\ CanonOutput.capacity b1 = CanonOutput.capacity b2
       /\ output_of b1 = output_of b2
       /\ output_of b2
          = [Some 97; Some 98; Some 99; Some 100; Some 101; Some 102].
Proof.
  assert (well_formed three_of_four) as Hwf by (vm_compute; intuition discriminate).
  assert (0 < CanonOutput.capacity three_of_four) as Hpos by reflexivity.
  assert (CanonOutput.length three_of_four + Z.of_nat (List.length [100; 101; 102])
          <= 2 ^ 30) as Hsum by (vm_compute; discriminate).
  split; [exact Hwf|]. split; [exact Hpos|]. split; [exact Hsum|].
  destruct (push_back_all_is_Append (H := RawCanonOutputT.resizer) three_of_four
              [100; 101; 102] Hwf Hpos Hsum)
    as (b1 & b2 & Hrun1 & Hrun2 & _ & Hcap & Hsame & Hout).
  exists b1, b2. split; [exact Hrun1|]. split; [exact Hrun2|].
  split; [exact Hcap|]. split; [exact Hsame|]. rewrite Hout. reflexivity.
Defined.

Lemma Append_app_witness :
  well_formed one_of_four
  /\ 0 < CanonOutput.capacity one_of_four
  /\ CanonOutput.length one_of_four + Z.of_nat (List.length [116; 116])
     + Z.of_nat (List.length [112; 58; 47]) <= 2 ^ 30
  /\ exists b1 b2 b12,
       CanonOutput.Append (H := RawCanonOutputT.resizer) 31 one_of_four [116; 116]
       = Returned b1
       /\ CanonOutput.Append (H := RawCanonOutputT.resizer) 31 b1 [112; 58; 47]
          = Returned b2
       /\ CanonOutput.Append (H := RawCanonOutputT.resizer) 31 one_of_four
            ([116; 116] ++ [112; 58; 47]) = Returned b12
       /\ CanonOutput.capacity b2 = CanonOutput.capacity b12
       /\ output_of b2 = output_of b12.
Proof.
  assert (well_formed one_of_four) as Hwf by (vm_compute; intuition discriminate).
  assert (0 < CanonOutput.capacity one_of_four) as Hpos by reflexivity.
  assert (CanonOutput.length one_of_four + Z.of_nat (List.length [116; 116])
          + Z.of_nat (List.length [112; 58; 47]) <= 2 ^ 30) as Hsum
    by (vm_compute; discriminate).
  split; [exact Hwf|]. split; [exact Hpos|]. split; [exact Hsum|].
  destruct (Append_app (H := RawCanonOutputT.resizer) one_of_four [116; 116]
              [112; 58; 47] Hwf Hpos Hsum)
    as (b1 & b2 & b12 & Hrun1 & Hrun2 & Hrun12 & _ & Hcap & Hout).
  exists b1, b2, b12. split; [exact Hrun1|]. split; [exact Hrun2|].
  split; [exact Hrun12|]. split; [exact Hcap|exact Hout].
Defined.

Lemma set_length_then_Append_witness :
  well_formed three_of_four
  /\ 0 < CanonOutput.capacity three_of_four
  /\ 0 <= 1 <= CanonOutput.length three_of_four
  /\ 1 + Z.of_nat (List.length [120; 121]) <= 2 ^ 30
  /\ exists b',
       CanonOutput.Append (H := RawCanonOutputT.resizer) 31
         (CanonOutput.set_length three_of_four 1) [120; 121] = Returned b'
       /\ output_of b' = [Some 97; Some 120; Some 121]
       /\ CanonOutput.capacity b' = 4.
Proof.
  assert (well_formed three_of_four) as Hwf by (vm_compute; intuition discriminate).
  assert (0 < CanonOutput.capacity three_of_four) as Hpos by reflexivity.
  assert (0 <= 1 <= CanonOutput.length three_of_four) as Hlen
    by (vm_compute; intuition discriminate).
  assert (1 + Z.of_nat (List.length [120; 121]) <= 2 ^ 30) as Hsum
    by (vm_compute; discriminate).
  split; [exact Hwf|]. split; [exact Hpos|]. split; [exact Hlen|]. split; [exact Hsum|].
  destruct (set_length_then_Append (H := RawCanonOutputT.resizer) three_of_four 1
              [120; 121] Hwf Hpos Hlen Hsum) as (b' & Hrun & _ & Hout & Hcap).
  exists b'. split; [exact Hrun|]. split.
  - rewrite Hout. reflexivity.
  - rewrite Hcap; [reflexivity|]. vm_compute. discriminate.
Defined.

Lemma Append_capacity_bound_witness :
  well_formed one_of_four
  /\ 0 < CanonOutput.capacity one_of_four
  /\ CanonOutput.length one_of_four + Z.of_nat (List.length [116; 116; 112; 58]) <= 2 ^ 30
  /\ exists b',
       CanonOutput.Append (H := RawCanonOutputT.resizer) 31 one_of_four
         [116; 116; 112; 58] = Returned b'
       /\ CanonOutput.capacity one_of_four <= CanonOutput.capacity b'
       /\ CanonOutput.capacity b' < 2 * CanonOutput.length b'.
Proof.
  assert (well_formed one_of_four) as Hwf by (vm_compute; intuition discriminate).
  assert (0 < CanonOutput.capacity one_of_four) as Hpos by reflexivity.
  assert (CanonOutput.length one_of_four + Z.of_nat (List.length [116; 116; 112; 58])
          <= 2 ^ 30) as Hsum by (vm_compute; discriminate).
  split; [exact Hwf|]. split; [exact Hpos|]. split; [exact Hsum|].
  destruct (Append_capacity_bound (H := RawCanonOutputT.resizer) one_of_four
              [116; 116; 112; 58] Hwf Hpos Hsum) as (b' & Hrun & Hge & _ & Hhalf).
  exists b'. split; [exact Hrun|]. split; [exact Hge|].
  apply Hhalf. reflexivity.
Defined.

Lemma within_capacity_no_growth_witness :
  well_formed one_of_four
  /\ CanonOutput.capacity one_of_four <= Int32.INT_MAX
  /\ CanonOutput.length one_of_four + Z.of_nat (List.length [105; 33])
     <= CanonOutput.capacity one_of_four
  /\ exists b',
       CanonOutput.Append (H := RawCanonOutputT.resizer) 0 one_of_four [105; 33]
       = Returned b'
       /\ push_back_all (H := RawCanonOutputT.resizer) 0 one_of_four [105; 33]
          = Returned b'
       /\ CanonOutput.capacity b' = 4
       /\ output_of b' = [Some 104; Some 105; Some 33].
Proof.
  assert (well_formed one_of_four) as Hwf by (vm_compute; intuition discriminate).
  assert (CanonOutput.capacity one_of_four <= Int32.INT_MAX) as Hint
    by (vm_compute; discriminate).
  assert (CanonOutput.length one_of_four + Z.of_nat (List.length [105; 33])
          <= CanonOutput.capacity one_of_four) as Hfit by (vm_compute; discriminate).
  split; [exact Hwf|]. split; [exact Hint|]. split; [exact Hfit|].
  destruct (within_capacity_no_growth one_of_four [105; 33] Hwf Hint Hfit)
    as (b' & Hrun & Hcap & _ & Hout).
  destruct (Hrun RawCanonOutputT.resizer 0%nat) as [Happend Hpush].
  exists b'. split; [exact Happend|]. split; [exact Hpush|].
  split; [rewrite Hcap; reflexivity|]. rewrite Hout. reflexivity.
Defined.

Lemma set_overwrites_one_witness :
  0 <= 1 < CanonOutput.capacity three_of_four
  /\ CanonOutput.data (CanonOutput.set three_of_four 1 66) !! 1 = Some 66
  /\ output_of (CanonOutput.set three_of_four 1 66) = [Some 97; Some 66; Some 99].
Proof.
  assert (0 <= 1 < CanonOutput.capacity three_of_four) as Hoffset
    by (vm_compute; intuition discriminate).
  destruct (set_overwrites_one three_of_four 1 66 Hoffset)
    as (_ & _ & Hat & _ & Hout & _).
  split; [exact Hoffset|]. split; [exact Hat|]. rewrite Hout. reflexivity.
Defined.

Lemma RawCanonOutputT_Resize_any_size_witness :
  well_formed three_of_four
  /\ 0 <= 2
  /\ CanonOutput.data (RawCanonOutputT.Resize 2 three_of_four) !! 1 = Some 98
  /\ CanonOutput.data (RawCanonOutputT.Resize 2 three_of_four) !! 2 = None
  /\ ~ well_formed (RawCanonOutputT.Resize 2 three_of_four).
Proof.
  assert (well_formed three_of_four) as Hwf by (vm_compute; intuition discriminate).
  assert (0 <= 2) as Hsz by (vm_compute; discriminate).
  destruct (RawCanonOutputT_Resize_any_size three_of_four 2 Hwf Hsz)
    as (Hat & Hiff & _).
  split; [exact Hwf|]. split; [exact Hsz|].
  split; [rewrite Hat; reflexivity|]. split; [rewrite Hat; reflexivity|].
  intros Hwf'. apply Hiff in Hwf'. vm_compute in Hwf'. apply Hwf'. reflexivity.
Defined.

Lemma stores_stay_in_bounds_witness :
  in_bounds one_of_four
  /\ well_formed one_of_four
  /\ CanonOutput.capacity one_of_four <= Int32.INT_MAX
  /\ exists b',
       CanonOutput.Append (H := RawCanonOutputT.resizer) 31 one_of_four
         [116; 116; 112; 58] = Returned b'
       /\ in_bounds b'.
Proof.
  assert (in_bounds one_of_four) as Hin.
  { intros i x Hix. unfold one_of_four in Hix. cbn [buffer_] in Hix.
    apply lookup_singleton_Some in Hix as [<- _].
    vm_compute. intuition discriminate. }
  assert (well_formed one_of_four) as Hwf by (vm_compute; intuition discriminate).
  assert (CanonOutput.capacity one_of_four <= Int32.INT_MAX) as Hint
    by (vm_compute; discriminate).
  split; [exact Hin|]. split; [exact Hwf|]. split; [exact Hint|].
  destruct (Append_returns (H := RawCanonOutputT.resizer) one_of_four
              [116; 116; 112; 58] ltac:(reflexivity)) as [b' Hrun].
  exists b'. split; [exact Hrun|].
  destruct (stores_stay_in_bounds one_of_four Hin Hwf Hint)
    as (_ & _ & _ & Happend & _).
  apply (Happend 31%nat [116; 116; 112; 58] b'); [vm_compute; discriminate|exact Hrun].
Defined.

(** * Properties of the encoders and decoders *)

(** ** Bit operations as arithmetic *)

Lemma land_high_low (h l n : Z) :
  0 <= n -> 0 <= l < 2 ^ n -> Z.land (h * 2 ^ n) l = 0.
Proof.
  intros Hn Hl. apply Z.bits_inj'. intros i Hi.
  rewrite Z.land_spec, Z.bits_0.
  destruct (Z.lt_ge_cases i n) as [Hlow|Hhigh].
  - by rewrite Z.mul_pow2_bits_low.
  - destruct (Z.eq_dec l 0) as [->|Hne]; [by rewrite Z.bits_0, andb_false_r|].
    rewrite (Z.bits_above_log2 l i), andb_false_r; [done|lia|].
    apply Z.lt_le_trans with n; [|done]. apply Z.log2_lt_pow2; lia.
Qed.

Lemma lor_add (n h l : Z) :
  0 <= n -> 0 <= l < 2 ^ n -> h mod 2 ^ n = 0 -> Z.lor h l = h + l.
Proof.
  intros Hn Hl Hh.
  assert (h = h / 2 ^ n * 2 ^ n) as Heq.
  { pose proof (Z.div_mod h (2 ^ n) ltac:(lia)). lia. }
  assert (Z.land h l = 0) as Hdisjoint by (rewrite Heq; by apply land_high_low).
  by rewrite <- Z.lxor_lor, Z.add_nocarry_lxor.
Qed.

Lemma land_mask (k x : Z) : 0 <= k -> Z.land x (2 ^ k - 1) = x mod 2 ^ k.
Proof.
  intros Hk. rewrite <- Z.land_ones by done. f_equal.
  rewrite Z.ones_equiv. lia.
Qed.

Lemma land_3F (x : Z) : Z.land x 0x3F = x mod 64.
Proof. exact (land_mask 6 x ltac:(lia)). Qed.

Lemma land_1F (x : Z) : Z.land x 0x1F = x mod 32.
Proof. exact (land_mask 5 x ltac:(lia)). Qed.

Lemma land_0F (x : Z) : Z.land x 0x0F = x mod 16.
Proof. exact (land_mask 4 x ltac:(lia)). Qed.

Lemma land_07 (x : Z) : Z.land x 0x07 = x mod 8.
Proof. exact (land_mask 3 x ltac:(lia)). Qed.

Lemma shiftr_6 (x : Z) : Z.shiftr x 6 = x / 64.
Proof. exact (Z.shiftr_div_pow2 x 6 ltac:(lia)). Qed.

Lemma shiftr_12 (x : Z) : Z.shiftr x 12 = x / 4096.
Proof. exact (Z.shiftr_div_pow2 x 12 ltac:(lia)). Qed.

Lemma shiftr_18 (x : Z) : Z.shiftr x 18 = x / 262144.
Proof. exact (Z.shiftr_div_pow2 x 18 ltac:(lia)). Qed.

Lemma shiftl_6 (x : Z) : Z.shiftl x 6 = x * 64.
Proof. exact (Z.shiftl_mul_pow2 x 6 ltac:(lia)). Qed.

Lemma shiftl_10 (x : Z) : Z.shiftl x 10 = x * 1024.
Proof. exact (Z.shiftl_mul_pow2 x 10 ltac:(lia)). Qed.

Lemma shiftl_12 (x : Z) : Z.shiftl x 12 = x * 4096.
Proof. exact (Z.shiftl_mul_pow2 x 12 ltac:(lia)). Qed.

Lemma shiftl_18 (x : Z) : Z.shiftl x 18 = x * 262144.
Proof. exact (Z.shiftl_mul_pow2 x 18 ltac:(lia)). Qed.

(** [lia] with Euclidean division by constants. *)
Ltac lia_div := Z.to_euclidean_division_equations; lia.

Lemma lor_trail (x : Z) : 0 <= x < 64 -> Z.lor 0x80 x = 0x80 + x.
Proof. intros Hx. by apply (lor_add 6). Qed.

Lemma lor_lead2 (x : Z) : 0 <= x < 32 -> Z.lor 0xC0 x = 0xC0 + x.
Proof. intros Hx. by apply (lor_add 5). Qed.

Lemma lor_lead3 (x : Z) : 0 <= x < 16 -> Z.lor 0xE0 x = 0xE0 + x.
Proof. intros Hx. by apply (lor_add 4). Qed.

Lemma lor_lead4 (x : Z) : 0 <= x < 8 -> Z.lor 0xF0 x = 0xF0 + x.
Proof. intros Hx. by apply (lor_add 3). Qed.

Lemma lor_shifted_6 (h l : Z) : 0 <= l < 64 -> Z.lor (h * 64) l = h * 64 + l.
Proof. intros Hl. apply (lor_add 6); [done|done|]. apply Z.mod_mul. done. Qed.

Lemma lor_shifted_12 (h l : Z) : 0 <= l < 4096 -> Z.lor (h * 4096) l = h * 4096 + l.
Proof. intros Hl. apply (lor_add 12); [done|done|]. apply Z.mod_mul. done. Qed.

Lemma lor_shifted_18 (h l : Z) : 0 <= l < 262144 -> Z.lor (h * 262144) l = h * 262144 + l.
Proof. intros Hl. apply (lor_add 18); [done|done|]. apply Z.mod_mul. done. Qed.

(** ** Range tests *)

Lemma between_spec (lo hi c : Z) : UTF.between lo hi c = true <-> lo <= c <= hi.
Proof. unfold UTF.between. rewrite andb_true_iff, !Z.leb_le. done. Qed.

Lemma between_true (lo hi c : Z) : lo <= c <= hi -> UTF.between lo hi c = true.
Proof. apply between_spec. Qed.

Lemma between_false (lo hi c : Z) : c < lo \/ hi < c -> UTF.between lo hi c = false.
Proof.
  intros Hc. destruct (UTF.between lo hi c) eqn:Hb; [|done].
  apply between_spec in Hb. lia.
Qed.

Lemma between_cases (lo hi c : Z) :
  (UTF.between lo hi c = true /\ lo <= c <= hi)
  \/ (UTF.between lo hi c = false /\ (c < lo \/ hi < c)).
Proof.
  destruct (UTF.between lo hi c) eqn:Hb.
  - left. split; [done|]. by apply between_spec.
  - right. split; [done|].
    destruct (Z.lt_ge_cases c lo); [by left|]. destruct (Z.lt_ge_cases hi c); [by right|].
    rewrite between_true in Hb; [done|lia].
Qed.

Lemma is_scalar_spec (cp : Z) :
  UTF.is_scalar cp = true <-> 0 <= cp <= 0x10FFFF /\ ~ (0xD800 <= cp <= 0xDFFF).
Proof.
  unfold UTF.is_scalar.
  destruct (between_cases 0 0x10FFFF cp) as [[-> ?]|[-> ?]],
    (between_cases 0xD800 0xDFFF cp) as [[-> ?]|[-> ?]];
    simpl; intuition (done || lia).
Qed.

(** ** The UTF-8 writer *)

(** The bytes of a code point, in arithmetic. *)
Lemma AppendUTF8Value_bytes (cp : Z) :
  0 <= cp <= 0x10FFFF ->
  UTF.AppendUTF8Value cp =
    if cp <=? 0x7F then [cp]
    else if cp <=? 0x7FF then [0xC0 + cp / 64; 0x80 + cp mod 64]
    else if cp <=? 0xFFFF then
      [0xE0 + cp / 4096; 0x80 + cp / 64 mod 64; 0x80 + cp mod 64]
    else
      [0xF0 + cp / 262144; 0x80 + cp / 4096 mod 64; 0x80 + cp / 64 mod 64;
       0x80 + cp mod 64].
Proof.
  intros Hcp. unfold UTF.AppendUTF8Value.
  rewrite !land_3F, !shiftr_6, !shiftr_12, !shiftr_18.
  rewrite !lor_trail by lia_div.
  destruct (Z.leb_spec cp 0x7F); [done|].
  destruct (Z.leb_spec cp 0x7FF); [by rewrite lor_lead2 by lia_div|].
  destruct (Z.leb_spec cp 0xFFFF); [by rewrite lor_lead3 by lia_div|].
  by rewrite lor_lead4 by lia_div.
Qed.

(** The bytes written for a scalar value are accepted by the validator. *)
Lemma valid_utf8_AppendUTF8Value (cp : Z) (rest : list Z) :
  UTF.is_scalar cp = true ->
  UTF.valid_utf8 (UTF.AppendUTF8Value cp ++ rest) = UTF.valid_utf8 rest.
Proof.
  rewrite is_scalar_spec. intros [Hrange Hsurrogate].
  rewrite AppendUTF8Value_bytes by done.
  destruct (Z.leb_spec cp 0x7F).
  { cbn [app UTF.valid_utf8]. by rewrite between_true by lia. }
  destruct (Z.leb_spec cp 0x7FF).
  { cbn [app UTF.valid_utf8]. unfold UTF.is_trail.
    rewrite (between_false 0 0x7F) by lia_div.
    by rewrite !between_true by lia_div. }
  destruct (Z.leb_spec cp 0xFFFF).
  { cbn [app UTF.valid_utf8]. unfold UTF.is_trail.
    rewrite (between_false 0 0x7F), (between_false 0xC2 0xDF) by lia_div.
    rewrite (between_true 0xE0 0xEF), (between_true 0x80 0xBF (0x80 + cp mod 64))
      by lia_div.
    destruct (Z.eqb_spec (0xE0 + cp / 4096) 0xE0);
      [by rewrite between_true by lia_div|].
    destruct (Z.eqb_spec (0xE0 + cp / 4096) 0xED);
      by rewrite between_true by lia_div. }
  cbn [app UTF.valid_utf8]. unfold UTF.is_trail.
  rewrite (between_false 0 0x7F), (between_false 0xC2 0xDF),
    (between_false 0xE0 0xEF) by lia_div.
  rewrite (between_true 0xF0 0xF4), (between_true 0x80 0xBF (0x80 + cp mod 64)),
    (between_true 0x80 0xBF (0x80 + cp / 64 mod 64)) by lia_div.
  destruct (Z.eqb_spec (0xF0 + cp / 262144) 0xF0);
    [by rewrite between_true by lia_div|].
  destruct (Z.eqb_spec (0xF0 + cp / 262144) 0xF4);
    by rewrite between_true by lia_div.
Qed.

(** ** The readers *)

Lemma checked_scalar (overlong_below cp : Z) (units : nat) :
  UTF.is_scalar (UTF.checked overlong_below cp units).1.2 = true.
Proof.
  unfold UTF.checked.
  destruct (overlong_below <=? cp); [|done].
  destruct (UTF.is_scalar cp) eqn:Hcp; done.
Qed.

Lemma ReadUTF8Char_scalar (src : list Z) : UTF.is_scalar (UTF.ReadUTF8Char src).1.2 = true.
Proof.
  unfold UTF.ReadUTF8Char. destruct src as [|b0 rest]; [done|].
  destruct (between_cases 0 0x7F b0) as [[-> Hb0]|[-> _]].
  { apply is_scalar_spec. simpl. lia. }
  destruct (UTF.between 0xC0 0xDF b0).
  { destruct rest as [|b1 ?]; [done|]. destruct (UTF.is_trail b1); [|done].
    apply checked_scalar. }
  destruct (UTF.between 0xE0 0xEF b0).
  { destruct rest as [|b1 [|b2 ?]]; [done|done|].
    destruct (UTF.is_trail b1 && UTF.is_trail b2); [|done]. apply checked_scalar. }
  destruct (UTF.between 0xF0 0xF7 b0); [|done].
  destruct rest as [|b1 [|b2 [|b3 ?]]]; [done|done|done|].
  destruct (UTF.is_trail b1 && UTF.is_trail b2 && UTF.is_trail b3); [|done].
  apply checked_scalar.
Qed.

Lemma ReadUTF16Char_scalar (src : list Z) : UTF.is_scalar (UTF.ReadUTF16Char src).1.2 = true.
Proof.
  unfold UTF.ReadUTF16Char. destruct src as [|u rest]; [done|].
  destruct (between_cases 0xD800 0xDBFF u) as [[-> Hu]|[-> Hu]].
  { destruct rest as [|t ?]; [done|].
    destruct (between_cases 0xDC00 0xDFFF t) as [[-> Ht]|[-> _]]; [|done].
    apply is_scalar_spec. cbn [fst snd]. rewrite shiftl_10. lia. }
  destruct (between_cases 0xDC00 0xDFFF u) as [[-> _]|[-> Hu']]; [done|].
  destruct (between_cases 0 0xFFFF u) as [[-> Hu'']|[-> _]]; [|done].
  apply is_scalar_spec. cbn [fst snd]. lia.
Qed.

Lemma ReadUTFChar_scalar (enc : UTF.encoding) (src : list Z) :
  UTF.is_scalar (UTF.ReadUTFChar enc src).1.2 = true.
Proof. destruct enc; [apply ReadUTF8Char_scalar|apply ReadUTF16Char_scalar]. Qed.

(** A failed read yields the replacement character. *)
Lemma ReadUTFChar_invalid (enc : UTF.encoding) (src : list Z) :
  (UTF.ReadUTFChar enc src).1.1 = false ->
  (UTF.ReadUTFChar enc src).1.2 = UTF.kUnicodeReplacementCharacter.
Proof.
  assert (forall lo cp n, (UTF.checked lo cp n).1.1 = false ->
            (UTF.checked lo cp n).1.2 = UTF.kUnicodeReplacementCharacter) as Hchecked.
  { intros lo cp n. unfold UTF.checked.
    destruct ((lo <=? cp) && UTF.is_scalar cp); done. }
  destruct enc; cbn [UTF.ReadUTFChar].
  - unfold UTF.ReadUTF8Char. destruct src as [|b0 rest]; [done|].
    destruct (UTF.between 0 0x7F b0); [done|].
    destruct (UTF.between 0xC0 0xDF b0).
    { destruct rest as [|b1 ?]; [done|]. destruct (UTF.is_trail b1); [|done].
      apply Hchecked. }
    destruct (UTF.between 0xE0 0xEF b0).
    { destruct rest as [|b1 [|b2 ?]]; [done|done|].
      destruct (UTF.is_trail b1 && UTF.is_trail b2); [|done]. apply Hchecked. }
    destruct (UTF.between 0xF0 0xF7 b0); [|done].
    destruct rest as [|b1 [|b2 [|b3 ?]]]; [done|done|done|].
    destruct (UTF.is_trail b1 && UTF.is_trail b2 && UTF.is_trail b3); [|done].
    apply Hchecked.
  - unfold UTF.ReadUTF16Char. destruct src as [|u rest]; [done|].
    destruct (UTF.between 0xD800 0xDBFF u).
    { destruct rest as [|t ?]; [done|]. destruct (UTF.between 0xDC00 0xDFFF t); done. }
    destruct (UTF.between 0xDC00 0xDFFF u); [done|].
    destruct (UTF.between 0 0xFFFF u); done.
Qed.

(** ** The loop over the input *)

Lemma decode_from_drop (enc : UTF.encoding) (skip : nat) (src : list Z) :
  UTF.decode_from enc skip src = UTF.decode enc (drop skip src).
Proof.
  revert skip. induction src as [|c src IH]; intros [|skip]; try done.
  cbn [UTF.decode_from drop]. apply IH.
Qed.

Lemma decode_cons (enc : UTF.encoding) (c : Z) (rest : list Z) :
  UTF.decode enc (c :: rest) =
    ((UTF.ReadUTFChar enc (c :: rest)).1.1, (UTF.ReadUTFChar enc (c :: rest)).1.2)
    :: UTF.decode enc (drop ((UTF.ReadUTFChar enc (c :: rest)).2 - 1) rest).
Proof.
  unfold UTF.decode at 1. cbn [UTF.decode_from].
  destruct (UTF.ReadUTFChar enc (c :: rest)) as [[ok cp] units].
  cbn [fst snd]. by rewrite decode_from_drop.
Qed.

Lemma decode_scalar (enc : UTF.encoding) (skip : nat) (src : list Z) :
  Forall (fun c => UTF.is_scalar c.2 = true) (UTF.decode_from enc skip src).
Proof.
  revert skip. induction src as [|c src IH]; intros skip; [constructor|].
  destruct skip as [|skip]; cbn [UTF.decode_from]; [|apply IH].
  pose proof (ReadUTFChar_scalar enc (c :: src)) as Hscalar.
  destruct (UTF.ReadUTFChar enc (c :: src)) as [[ok cp] units].
  constructor; [exact Hscalar|apply IH].
Qed.

(** Every failed read leaves the replacement character in the result. *)
Lemma decode_invalid (enc : UTF.encoding) (skip : nat) (src : list Z) :
  forallb fst (UTF.decode_from enc skip src) = false ->
  (false, UTF.kUnicodeReplacementCharacter) ∈ UTF.decode_from enc skip src.
Proof.
  revert skip. induction src as [|c src IH]; intros skip; [done|].
  destruct skip as [|skip]; cbn [UTF.decode_from]; [|apply IH].
  pose proof (ReadUTFChar_invalid enc (c :: src)) as Hinvalid.
  destruct (UTF.ReadUTFChar enc (c :: src)) as [[ok cp] units].
  cbn [forallb fst snd] in *. destruct ok.
  - intros Hrest. apply list_elem_of_further, IH, Hrest.
  - intros _. rewrite Hinvalid by done. apply list_elem_of_here.
Qed.

(** The validator accepts what is written for a sequence of scalar values. *)
Lemma valid_utf8_encoded (chars : list (bool * Z)) (rest : list Z) :
  Forall (fun c => UTF.is_scalar c.2 = true) chars ->
  UTF.valid_utf8 (flat_map (fun c => UTF.AppendUTF8Value c.2) chars ++ rest)
  = UTF.valid_utf8 rest.
Proof.
  induction 1 as [|c chars Hc _ IH]; [done|].
  cbn [flat_map]. by rewrite <- app_assoc, valid_utf8_AppendUTF8Value.
Qed.

(** ** Well-formed UTF-8 is read back as it is *)

Lemma ReadUTF8Char_1 (b0 : Z) (rest : list Z) :
  0 <= b0 <= 0x7F -> UTF.ReadUTF8Char (b0 :: rest) = (true, b0, 1%nat).
Proof. intros Hb0. unfold UTF.ReadUTF8Char. by rewrite between_true. Qed.

Lemma ReadUTF8Char_2 (b0 b1 : Z) (rest : list Z) :
  0xC2 <= b0 <= 0xDF -> 0x80 <= b1 <= 0xBF ->
  UTF.ReadUTF8Char (b0 :: b1 :: rest)
  = (true, (b0 - 0xC0) * 64 + (b1 - 0x80), 2%nat).
Proof.
  intros Hb0 Hb1. unfold UTF.ReadUTF8Char, UTF.is_trail.
  rewrite (between_false 0 0x7F), (between_true 0xC0 0xDF), (between_true 0x80 0xBF)
    by lia.
  rewrite land_1F, land_3F, shiftl_6, lor_shifted_6 by lia_div.
  replace (b0 mod 32 * 64 + b1 mod 64) with ((b0 - 0xC0) * 64 + (b1 - 0x80)) by lia_div.
  unfold UTF.checked.
  rewrite (proj2 (Z.leb_le _ _)) by lia.
  rewrite (proj2 (is_scalar_spec _)) by lia. done.
Qed.

Lemma ReadUTF8Char_3 (b0 b1 b2 : Z) (rest : list Z) :
  0xE0 <= b0 <= 0xEF -> 0x80 <= b1 <= 0xBF -> 0x80 <= b2 <= 0xBF ->
  (b0 = 0xE0 -> 0xA0 <= b1) -> (b0 = 0xED -> b1 <= 0x9F) ->
  UTF.ReadUTF8Char (b0 :: b1 :: b2 :: rest)
  = (true, (b0 - 0xE0) * 4096 + (b1 - 0x80) * 64 + (b2 - 0x80), 3%nat).
Proof.
  intros Hb0 Hb1 Hb2 Hlow Hhigh. unfold UTF.ReadUTF8Char, UTF.is_trail.
  rewrite (between_false 0 0x7F), (between_false 0xC0 0xDF), (between_true 0xE0 0xEF),
    !(between_true 0x80 0xBF) by lia.
  rewrite land_0F, !land_3F, shiftl_6, shiftl_12.
  rewrite lor_shifted_6, lor_shifted_12 by lia_div.
  replace (b0 mod 16 * 4096 + (b1 mod 64 * 64 + b2 mod 64))
    with ((b0 - 0xE0) * 4096 + (b1 - 0x80) * 64 + (b2 - 0x80)) by lia_div.
  unfold UTF.checked. cbn [andb].
  rewrite (proj2 (Z.leb_le _ _)) by lia.
  rewrite (proj2 (is_scalar_spec _)) by lia. done.
Qed.

Lemma ReadUTF8Char_4 (b0 b1 b2 b3 : Z) (rest : list Z) :
  0xF0 <= b0 <= 0xF4 -> 0x80 <= b1 <= 0xBF -> 0x80 <= b2 <= 0xBF -> 0x80 <= b3 <= 0xBF ->
  (b0 = 0xF0 -> 0x90 <= b1) -> (b0 = 0xF4 -> b1 <= 0x8F) ->
  UTF.ReadUTF8Char (b0 :: b1 :: b2 :: b3 :: rest)
  = (true, (b0 - 0xF0) * 262144 + (b1 - 0x80) * 4096 + (b2 - 0x80) * 64 + (b3 - 0x80),
     4%nat).
Proof.
  intros Hb0 Hb1 Hb2 Hb3 Hlow Hhigh. unfold UTF.ReadUTF8Char, UTF.is_trail.
  rewrite (between_false 0 0x7F), (between_false 0xC0 0xDF), (between_false 0xE0 0xEF),
    (between_true 0xF0 0xF7), !(between_true 0x80 0xBF) by lia.
  rewrite land_07, !land_3F, shiftl_6, shiftl_12, shiftl_18.
  rewrite lor_shifted_6, lor_shifted_12, lor_shifted_18 by lia_div.
  replace (b0 mod 8 * 262144 + (b1 mod 64 * 4096 + (b2 mod 64 * 64 + b3 mod 64)))
    with ((b0 - 0xF0) * 262144 + (b1 - 0x80) * 4096 + (b2 - 0x80) * 64 + (b3 - 0x80))
    by lia_div.
  unfold UTF.checked. cbn [andb].
  rewrite (proj2 (Z.leb_le _ _)) by lia.
  rewrite (proj2 (is_scalar_spec _)) by lia. done.
Qed.

Lemma AppendUTF8Value_2 (b0 b1 : Z) :
  0xC2 <= b0 <= 0xDF -> 0x80 <= b1 <= 0xBF ->
  UTF.AppendUTF8Value ((b0 - 0xC0) * 64 + (b1 - 0x80)) = [b0; b1].
Proof.
  intros Hb0 Hb1. rewrite AppendUTF8Value_bytes by lia.
  rewrite (proj2 (Z.leb_gt _ _)), (proj2 (Z.leb_le _ _)) by lia.
  f_equal; [lia_div|]. f_equal. lia_div.
Qed.

Lemma AppendUTF8Value_3 (b0 b1 b2 : Z) :
  0xE0 <= b0 <= 0xEF -> 0x80 <= b1 <= 0xBF -> 0x80 <= b2 <= 0xBF ->
  (b0 = 0xE0 -> 0xA0 <= b1) ->
  UTF.AppendUTF8Value ((b0 - 0xE0) * 4096 + (b1 - 0x80) * 64 + (b2 - 0x80)) = [b0; b1; b2].
Proof.
  intros Hb0 Hb1 Hb2 Hlow. rewrite AppendUTF8Value_bytes by lia.
  rewrite !(proj2 (Z.leb_gt _ _)), (proj2 (Z.leb_le _ _)) by lia.
  f_equal; [lia_div|]. f_equal; [lia_div|]. f_equal. lia_div.
Qed.

Lemma AppendUTF8Value_4 (b0 b1 b2 b3 : Z) :
  0xF0 <= b0 <= 0xF4 -> 0x80 <= b1 <= 0xBF -> 0x80 <= b2 <= 0xBF -> 0x80 <= b3 <= 0xBF ->
  (b0 = 0xF0 -> 0x90 <= b1) -> (b0 = 0xF4 -> b1 <= 0x8F) ->
  UTF.AppendUTF8Value
    ((b0 - 0xF0) * 262144 + (b1 - 0x80) * 4096 + (b2 - 0x80) * 64 + (b3 - 0x80))
  = [b0; b1; b2; b3].
Proof.
  intros Hb0 Hb1 Hb2 Hb3 Hlow Hhigh. rewrite AppendUTF8Value_bytes by lia.
  rewrite !(proj2 (Z.leb_gt _ _)) by lia.
  f_equal; [lia_div|]. f_equal; [lia_div|]. f_equal; [lia_div|]. f_equal. lia_div.
Qed.

(** ** The readers against the encoders

    A reader accepts exactly the code units that the encoder writes for a
    scalar value, and what it does not accept it passes over one unit at a
    time.  This is what makes the loop over the input the repair that the
    header describes. *)

Lemma shiftr_10 (x : Z) : Z.shiftr x 10 = x / 1024.
Proof. exact (Z.shiftr_div_pow2 x 10 ltac:(lia)). Qed.

Lemma land_3FF (x : Z) : Z.land x 0x3FF = x mod 1024.
Proof. exact (land_mask 10 x ltac:(lia)). Qed.

Lemma checked_true (overlong_below cp cp' : Z) (units units' : nat) :
  UTF.checked overlong_below cp units = (true, cp', units') ->
  overlong_below <= cp /\ UTF.is_scalar cp = true /\ cp' = cp /\ units' = units.
Proof.
  unfold UTF.checked, UTF.invalid_char.
  destruct (Z.leb_spec overlong_below cp); [|discriminate].
  destruct (UTF.is_scalar cp); [|discriminate].
  by intros [= <- <-].
Qed.

Lemma checked_cases (overlong_below cp : Z) (units : nat) :
  (UTF.checked overlong_below cp units).1.1 = true
  \/ UTF.checked overlong_below cp units = UTF.invalid_char.
Proof.
  unfold UTF.checked. destruct ((overlong_below <=? cp) && UTF.is_scalar cp); auto.
Qed.

Lemma ReadUTF8Char_2_raw (b0 b1 : Z) (rest : list Z) :
  0xC0 <= b0 <= 0xDF -> 0x80 <= b1 <= 0xBF ->
  UTF.ReadUTF8Char (b0 :: b1 :: rest)
  = UTF.checked 0x80 ((b0 - 0xC0) * 64 + (b1 - 0x80)) 2.
Proof.
  intros Hb0 Hb1. unfold UTF.ReadUTF8Char, UTF.is_trail.
  rewrite (between_false 0 0x7F), (between_true 0xC0 0xDF), (between_true 0x80 0xBF)
    by lia.
  rewrite land_1F, land_3F, shiftl_6, lor_shifted_6 by lia_div.
  by replace (b0 mod 32 * 64 + b1 mod 64) with ((b0 - 0xC0) * 64 + (b1 - 0x80))
    by lia_div.
Qed.

Lemma ReadUTF8Char_3_raw (b0 b1 b2 : Z) (rest : list Z) :
  0xE0 <= b0 <= 0xEF -> 0x80 <= b1 <= 0xBF -> 0x80 <= b2 <= 0xBF ->
  UTF.ReadUTF8Char (b0 :: b1 :: b2 :: rest)
  = UTF.checked 0x800 ((b0 - 0xE0) * 4096 + (b1 - 0x80) * 64 + (b2 - 0x80)) 3.
Proof.
  intros Hb0 Hb1 Hb2. unfold UTF.ReadUTF8Char, UTF.is_trail.
  rewrite (between_false 0 0x7F), (between_false 0xC0 0xDF), (between_true 0xE0 0xEF),
    !(between_true 0x80 0xBF) by lia.
  rewrite land_0F, !land_3F, shiftl_6, shiftl_12.
  rewrite lor_shifted_6, lor_shifted_12 by lia_div.
  by replace (b0 mod 16 * 4096 + (b1 mod 64 * 64 + b2 mod 64))
    with ((b0 - 0xE0) * 4096 + (b1 - 0x80) * 64 + (b2 - 0x80)) by lia_div.
Qed.

Lemma ReadUTF8Char_4_raw (b0 b1 b2 b3 : Z) (rest : list Z) :
  0xF0 <= b0 <= 0xF7 -> 0x80 <= b1 <= 0xBF -> 0x80 <= b2 <= 0xBF -> 0x80 <= b3 <= 0xBF ->
  UTF.ReadUTF8Char (b0 :: b1 :: b2 :: b3 :: rest)
  = UTF.checked 0x10000
      ((b0 - 0xF0) * 262144 + (b1 - 0x80) * 4096 + (b2 - 0x80) * 64 + (b3 - 0x80)) 4.
Proof.
  intros Hb0 Hb1 Hb2 Hb3. unfold UTF.ReadUTF8Char, UTF.is_trail.
  rewrite (between_false 0 0x7F), (between_false 0xC0 0xDF), (between_false 0xE0 0xEF),
    (between_true 0xF0 0xF7), !(between_true 0x80 0xBF) by lia.
  rewrite land_07, !land_3F, shiftl_6, shiftl_12, shiftl_18.
  rewrite lor_shifted_6, lor_shifted_12, lor_shifted_18 by lia_div.
  by replace (b0 mod 8 * 262144 + (b1 mod 64 * 4096 + (b2 mod 64 * 64 + b3 mod 64)))
    with ((b0 - 0xF0) * 262144 + (b1 - 0x80) * 4096 + (b2 - 0x80) * 64 + (b3 - 0x80))
    by lia_div.
Qed.

(** What the UTF-8 reader accepts is the encoding of a scalar value. *)
Lemma ReadUTF8Char_sound (src : list Z) (cp : Z) (units : nat) :
  UTF.ReadUTF8Char src = (true, cp, units) ->
  UTF.is_scalar cp = true
  /\ units = List.length (UTF.AppendUTF8Value cp)
  /\ exists tail, src = UTF.AppendUTF8Value cp ++ tail.
Proof.
  destruct src as [|b0 rest]; [discriminate|].
  destruct (between_cases 0 0x7F b0) as [[Hb Hb0]|[Hb Hb0]].
  { rewrite ReadUTF8Char_1 by done. intros [= <- <-].
    assert (UTF.AppendUTF8Value b0 = [b0]) as ->.
    { unfold UTF.AppendUTF8Value. by rewrite (proj2 (Z.leb_le _ _)) by lia. }
    split; [apply is_scalar_spec; lia|]. split; [done|]. by exists rest. }
  destruct (between_cases 0xC0 0xDF b0) as [[Hc Hc0]|[Hc Hc0]].
  { destruct rest as [|b1 r1].
    { unfold UTF.ReadUTF8Char, UTF.invalid_char. rewrite Hb, Hc. discriminate. }
    destruct (between_cases 0x80 0xBF b1) as [[Ht Hb1]|[Ht Hb1]].
    - rewrite ReadUTF8Char_2_raw by done.
      intros (Hlow & Hscalar & -> & ->)%checked_true.
      rewrite AppendUTF8Value_2 by lia. split; [done|]. split; [done|]. by exists r1.
    - unfold UTF.ReadUTF8Char, UTF.is_trail, UTF.invalid_char.
      rewrite Hb, Hc, Ht. discriminate. }
  destruct (between_cases 0xE0 0xEF b0) as [[Hd Hd0]|[Hd Hd0]].
  { destruct rest as [|b1 [|b2 r2]].
    { unfold UTF.ReadUTF8Char, UTF.invalid_char. rewrite Hb, Hc, Hd. discriminate. }
    { unfold UTF.ReadUTF8Char, UTF.invalid_char. rewrite Hb, Hc, Hd. discriminate. }
    destruct (between_cases 0x80 0xBF b1) as [[Ht1 Hb1]|[Ht1 Hb1]];
      [destruct (between_cases 0x80 0xBF b2) as [[Ht2 Hb2]|[Ht2 Hb2]]|].
    - rewrite ReadUTF8Char_3_raw by done.
      intros (Hlow & Hscalar & -> & ->)%checked_true.
      rewrite AppendUTF8Value_3 by lia. split; [done|]. split; [done|]. by exists r2.
    - unfold UTF.ReadUTF8Char, UTF.is_trail, UTF.invalid_char.
      rewrite Hb, Hc, Hd, Ht1, Ht2. discriminate.
    - unfold UTF.ReadUTF8Char, UTF.is_trail, UTF.invalid_char.
      rewrite Hb, Hc, Hd, Ht1. discriminate. }
  destruct (between_cases 0xF0 0xF7 b0) as [[He He0]|[He He0]].
  { destruct rest as [|b1 [|b2 [|b3 r3]]].
    { unfold UTF.ReadUTF8Char, UTF.invalid_char. rewrite Hb, Hc, Hd, He. discriminate. }
    { unfold UTF.ReadUTF8Char, UTF.invalid_char. rewrite Hb, Hc, Hd, He. discriminate. }
    { unfold UTF.ReadUTF8Char, UTF.invalid_char. rewrite Hb, Hc, Hd, He. discriminate. }
    destruct (between_cases 0x80 0xBF b1) as [[Ht1 Hb1]|[Ht1 Hb1]];
      [destruct (between_cases 0x80 0xBF b2) as [[Ht2 Hb2]|[Ht2 Hb2]];
       [destruct (between_cases 0x80 0xBF b3) as [[Ht3 Hb3]|[Ht3 Hb3]]|]|].
    - rewrite ReadUTF8Char_4_raw by done.
      intros (Hlow & Hscalar & -> & ->)%checked_true.
      pose proof (proj1 (is_scalar_spec _) Hscalar) as [Hrange _].
      rewrite AppendUTF8Value_4 by lia. split; [done|]. split; [done|]. by exists r3.
    - unfold UTF.ReadUTF8Char, UTF.is_trail, UTF.invalid_char.
      rewrite Hb, Hc, Hd, He, Ht1, Ht2, Ht3. discriminate.
    - unfold UTF.ReadUTF8Char, UTF.is_trail, UTF.invalid_char.
      rewrite Hb, Hc, Hd, He, Ht1, Ht2. discriminate.
    - unfold UTF.ReadUTF8Char, UTF.is_trail, UTF.invalid_char.
      rewrite Hb, Hc, Hd, He, Ht1. discriminate. }
  unfold UTF.ReadUTF8Char, UTF.invalid_char. rewrite Hb, Hc, Hd, He. discriminate.
Qed.

(** The UTF-8 reader accepts the encoding of every scalar value. *)
Lemma ReadUTF8Char_complete (cp : Z) (tail : list Z) :
  UTF.is_scalar cp = true ->
  UTF.ReadUTF8Char (UTF.AppendUTF8Value cp ++ tail)
  = (true, cp, List.length (UTF.AppendUTF8Value cp)).
Proof.
  rewrite is_scalar_spec. intros [Hrange Hsurrogate].
  rewrite AppendUTF8Value_bytes by done.
  destruct (Z.leb_spec cp 0x7F).
  { cbn [app List.length]. by rewrite ReadUTF8Char_1 by lia. }
  destruct (Z.leb_spec cp 0x7FF).
  { cbn [app List.length]. rewrite ReadUTF8Char_2 by lia_div.
    f_equal. f_equal. lia_div. }
  destruct (Z.leb_spec cp 0xFFFF).
  { cbn [app List.length]. rewrite ReadUTF8Char_3 by lia_div.
    f_equal. f_equal. lia_div. }
  cbn [app List.length]. rewrite ReadUTF8Char_4 by lia_div.
  f_equal. f_equal. lia_div.
Qed.

Lemma AppendUTF16Value_units (cp : Z) :
  UTF.AppendUTF16Value cp =
    if cp <=? 0xFFFF then [cp]
    else [0xD800 + (cp - 0x10000) / 1024; 0xDC00 + (cp - 0x10000) mod 1024].
Proof. unfold UTF.AppendUTF16Value. by rewrite shiftr_10, land_3FF. Qed.

(** What the UTF-16 reader accepts is the encoding of a scalar value. *)
Lemma ReadUTF16Char_sound (src : list Z) (cp : Z) (units : nat) :
  UTF.ReadUTF16Char src = (true, cp, units) ->
  UTF.is_scalar cp = true
  /\ units = List.length (UTF.AppendUTF16Value cp)
  /\ exists tail, src = UTF.AppendUTF16Value cp ++ tail.
Proof.
  destruct src as [|u rest]; [discriminate|].
  unfold UTF.ReadUTF16Char, UTF.invalid_char. rewrite AppendUTF16Value_units.
  destruct (between_cases 0xD800 0xDBFF u) as [[-> Hu]|[-> Hu]].
  { destruct rest as [|t r]; [discriminate|].
    destruct (between_cases 0xDC00 0xDFFF t) as [[-> Ht]|[-> Ht]]; [|discriminate].
    rewrite shiftl_10. intros [= <- <-].
    rewrite (proj2 (Z.leb_gt _ _)) by lia.
    split; [apply is_scalar_spec; lia|]. split; [done|]. exists r.
    cbn [app]. f_equal; [lia_div|]. f_equal. lia_div. }
  destruct (between_cases 0xDC00 0xDFFF u) as [[-> Hu']|[-> Hu']]; [discriminate|].
  destruct (between_cases 0 0xFFFF u) as [[-> Hu'']|[-> Hu'']]; [|discriminate].
  intros [= <- <-]. rewrite (proj2 (Z.leb_le _ _)) by lia.
  split; [apply is_scalar_spec; lia|]. split; [done|]. by exists rest.
Qed.

(** The UTF-16 reader accepts the encoding of every scalar value. *)
Lemma ReadUTF16Char_complete (cp : Z) (tail : list Z) :
  UTF.is_scalar cp = true ->
  UTF.ReadUTF16Char (UTF.AppendUTF16Value cp ++ tail)
  = (true, cp, List.length (UTF.AppendUTF16Value cp)).
Proof.
  rewrite is_scalar_spec. intros [Hrange Hsurrogate].
  rewrite AppendUTF16Value_units. unfold UTF.ReadUTF16Char.
  destruct (Z.leb_spec cp 0xFFFF).
  { cbn [app List.length].
    by rewrite (between_false 0xD800 0xDBFF), (between_false 0xDC00 0xDFFF),
      (between_true 0 0xFFFF) by lia. }
  cbn [app List.length].
  rewrite (between_true 0xD800 0xDBFF), (between_true 0xDC00 0xDFFF) by lia_div.
  rewrite shiftl_10. f_equal. f_equal. lia_div.
Qed.

Lemma encode_nonempty (enc : UTF.encoding) (cp : Z) : UTF.encode enc cp <> [].
Proof.
  destruct enc; cbn [UTF.encode].
  - unfold UTF.AppendUTF8Value. by repeat case_match.
  - unfold UTF.AppendUTF16Value. by case_match.
Qed.

Lemma ReadUTFChar_sound (enc : UTF.encoding) (src : list Z) (cp : Z) (units : nat) :
  UTF.ReadUTFChar enc src = (true, cp, units) ->
  UTF.is_scalar cp = true
  /\ units = List.length (UTF.encode enc cp)
  /\ exists tail, src = UTF.encode enc cp ++ tail.
Proof. destruct enc; [apply ReadUTF8Char_sound|apply ReadUTF16Char_sound]. Qed.

Lemma ReadUTFChar_complete (enc : UTF.encoding) (cp : Z) (tail : list Z) :
  UTF.is_scalar cp = true ->
  UTF.ReadUTFChar enc (UTF.encode enc cp ++ tail)
  = (true, cp, List.length (UTF.encode enc cp)).
Proof. destruct enc; [apply ReadUTF8Char_complete|apply ReadUTF16Char_complete]. Qed.

(** A read that fails passes over one unit. *)
Lemma ReadUTFChar_failed (enc : UTF.encoding) (src : list Z) :
  (UTF.ReadUTFChar enc src).1.1 = false -> UTF.ReadUTFChar enc src = UTF.invalid_char.
Proof.
  assert (forall lo cp n, (UTF.checked lo cp n).1.1 = false ->
            UTF.checked lo cp n = UTF.invalid_char) as Hchecked.
  { intros lo cp n Hfalse. destruct (checked_cases lo cp n) as [Htrue|]; [|done].
    by rewrite Htrue in Hfalse. }
  destruct enc; cbn [UTF.ReadUTFChar].
  - unfold UTF.ReadUTF8Char. destruct src as [|b0 rest]; [done|].
    destruct (UTF.between 0 0x7F b0); [done|].
    destruct (UTF.between 0xC0 0xDF b0).
    { destruct rest as [|b1 ?]; [done|]. destruct (UTF.is_trail b1); [|done].
      apply Hchecked. }
    destruct (UTF.between 0xE0 0xEF b0).
    { destruct rest as [|b1 [|b2 ?]]; [done|done|].
      destruct (UTF.is_trail b1 && UTF.is_trail b2); [|done]. apply Hchecked. }
    destruct (UTF.between 0xF0 0xF7 b0); [|done].
    destruct rest as [|b1 [|b2 [|b3 ?]]]; [done|done|done|].
    destruct (UTF.is_trail b1 && UTF.is_trail b2 && UTF.is_trail b3); [|done].
    apply Hchecked.
  - unfold UTF.ReadUTF16Char. destruct src as [|u rest]; [done|].
    destruct (UTF.between 0xD800 0xDBFF u).
    { destruct rest as [|t ?]; [done|]. destruct (UTF.between 0xDC00 0xDFFF t); done. }
    destruct (UTF.between 0xDC00 0xDFFF u); [done|].
    destruct (UTF.between 0 0xFFFF u); done.
Qed.

(** At every unit of the input, either a well-formed character starts and
    the reader takes it, or none does and the reader passes over the unit. *)
Lemma ReadUTFChar_cases (enc : UTF.encoding) (u : Z) (rest : list Z) :
  (exists cp tail,
     UTF.is_scalar cp = true
     /\ u :: rest = UTF.encode enc cp ++ tail
     /\ UTF.ReadUTFChar enc (u :: rest) = (true, cp, List.length (UTF.encode enc cp)))
  \/ (UTF.ReadUTFChar enc (u :: rest) = UTF.invalid_char
      /\ forall cp tail, UTF.is_scalar cp = true -> u :: rest <> UTF.encode enc cp ++ tail).
Proof.
  destruct (UTF.ReadUTFChar enc (u :: rest)) as [[[] cp] units] eqn:Hread.
  - left. destruct (ReadUTFChar_sound _ _ _ _ Hread) as (Hscalar & -> & tail & Hsrc).
    by exists cp, tail.
  - right. pose proof (ReadUTFChar_failed enc (u :: rest)) as Hfailed.
    rewrite Hread in Hfailed. split; [by apply Hfailed|].
    intros cp' tail Hscalar Hsrc.
    pose proof (ReadUTFChar_complete enc cp' tail Hscalar) as Hcomplete.
    rewrite <- Hsrc, Hread in Hcomplete. discriminate.
Qed.

(** ** The loop over the input is the repair *)

Lemma decode_repaired (enc : UTF.encoding) (src : list Z) :
  UTF.repaired enc src (UTF.decode enc src).
Proof.
  assert (forall (n : nat) src, (List.length src <= n)%nat ->
            UTF.repaired enc src (UTF.decode enc src)) as Hall.
  { clear src. induction n as [|n IH]; intros src Hlen.
    { destruct src; [constructor|simpl in Hlen; lia]. }
    destruct src as [|u rest]; [constructor|]. cbn [List.length] in Hlen.
    rewrite decode_cons.
    destruct (ReadUTFChar_cases enc u rest)
      as [(cp & tail & Hscalar & Hsrc & ->)|[-> Hnone]]; cbn [fst snd].
    - destruct (UTF.encode enc cp) as [|u' units] eqn:Hunits;
        [by apply encode_nonempty in Hunits|].
      cbn [app List.length] in *. injection Hsrc as -> ->.
      replace (S (List.length units) - 1)%nat with (List.length units) by lia.
      rewrite drop_app_length.
      change (u' :: units ++ tail) with ((u' :: units) ++ tail). rewrite <- Hunits.
      apply UTF.repaired_copy; [done|]. apply IH.
      rewrite length_app in Hlen. lia.
    - unfold UTF.invalid_char. cbn [fst snd Nat.sub]. rewrite drop_0.
      apply UTF.repaired_replace; [done|]. apply IH. lia. }
  by apply (Hall (List.length src)).
Qed.

(** The repair leaves no choice: the characters it yields are those the loop
    reads. *)
Lemma repaired_decode (enc : UTF.encoding) (src : list Z) (chars : list (bool * Z)) :
  UTF.repaired enc src chars -> chars = UTF.decode enc src.
Proof.
  induction 1 as [|cp rest chars Hscalar _ IH|u rest chars Hnone _ IH]; [done| |].
  - pose proof (ReadUTFChar_complete enc cp rest Hscalar) as Hread.
    destruct (UTF.encode enc cp) as [|u units] eqn:Hunits;
      [by apply encode_nonempty in Hunits|].
    cbn [app List.length] in *. rewrite decode_cons, Hread. cbn [fst snd].
    replace (S (List.length units) - 1)%nat with (List.length units) by lia.
    by rewrite drop_app_length, IH.
  - rewrite decode_cons.
    destruct (ReadUTFChar_cases enc u rest)
      as [(cp & tail & Hscalar & Hsrc & _)|[-> _]]; [by apply Hnone in Hsrc|].
    unfold UTF.invalid_char. cbn [fst snd Nat.sub]. by rewrite drop_0, IH.
Qed.

(** The characters of a repair are scalar values, and a character that
    stands for a confusing bit is the replacement character. *)
Lemma repaired_scalar (enc : UTF.encoding) (src : list Z) (chars : list (bool * Z)) :
  UTF.repaired enc src chars ->
  Forall (fun c => UTF.is_scalar c.2 = true) chars.
Proof. induction 1; constructor; done. Qed.



Lemma decode_valid_utf8 (n : nat) (src : list Z) :
  (List.length src <= n)%nat -> UTF.valid_utf8 src = true ->
  forallb fst (UTF.decode UTF.UTF8 src) = true
  /\ flat_map (fun c => UTF.AppendUTF8Value c.2) (UTF.decode UTF.UTF8 src) = src.
Proof.
  revert src. induction n as [|n IH]; intros src Hlen Hvalid.
  { destruct src; [done|simpl in Hlen; lia]. }
  destruct src as [|b0 r0]; [done|].
  cbn [UTF.valid_utf8] in Hvalid. rewrite decode_cons. cbn [UTF.ReadUTFChar].
  cbn [List.length] in Hlen. unfold UTF.is_trail in Hvalid.
  destruct (between_cases 0 0x7F b0) as [[Hb Hb0]|[Hb Hb0]]; rewrite Hb in Hvalid.
  { rewrite ReadUTF8Char_1 by done. cbn [fst snd forallb flat_map Nat.sub]. rewrite ?skipn_cons, ?drop_0.
    destruct (IH r0) as [-> ->]; [lia|done|]. split; [done|].
    unfold UTF.AppendUTF8Value. by rewrite (proj2 (Z.leb_le _ _)) by lia. }
  destruct r0 as [|b1 r1]; [done|]. cbn [List.length] in Hlen.
  destruct (between_cases 0xC2 0xDF b0) as [[Hc Hc0]|[Hc Hc0]]; rewrite Hc in Hvalid.
  { apply andb_true_iff in Hvalid as [Hb1 Hrest]. apply between_spec in Hb1.
    rewrite ReadUTF8Char_2 by done. cbn [fst snd forallb flat_map Nat.sub]. rewrite ?skipn_cons, ?drop_0.
    destruct (IH r1) as [-> ->]; [lia|done|]. by rewrite AppendUTF8Value_2. }
  destruct r1 as [|b2 r2]; [done|]. cbn [List.length] in Hlen.
  destruct (between_cases 0xE0 0xEF b0) as [[Hd Hd0]|[Hd Hd0]]; rewrite Hd in Hvalid.
  { apply andb_true_iff in Hvalid as [Hvalid Hrest].
    apply andb_true_iff in Hvalid as [Hb1 Hb2]. apply between_spec in Hb2.
    assert (0x80 <= b1 <= 0xBF /\ (b0 = 0xE0 -> 0xA0 <= b1) /\ (b0 = 0xED -> b1 <= 0x9F))
      as (Hb1' & Hlow & Hhigh).
    { destruct (Z.eqb_spec b0 0xE0); [apply between_spec in Hb1; lia|].
      destruct (Z.eqb_spec b0 0xED); apply between_spec in Hb1; lia. }
    rewrite ReadUTF8Char_3 by done. cbn [fst snd forallb flat_map Nat.sub]. rewrite ?skipn_cons, ?drop_0.
    destruct (IH r2) as [-> ->]; [lia|done|]. by rewrite AppendUTF8Value_3. }
  destruct r2 as [|b3 r3]; [done|]. cbn [List.length] in Hlen.
  apply andb_true_iff in Hvalid as [Hvalid Hrest].
  apply andb_true_iff in Hvalid as [Hvalid Hb3]. apply between_spec in Hb3.
  apply andb_true_iff in Hvalid as [Hvalid Hb2]. apply between_spec in Hb2.
  apply andb_true_iff in Hvalid as [He Hb1]. apply between_spec in He.
  assert (0x80 <= b1 <= 0xBF /\ (b0 = 0xF0 -> 0x90 <= b1) /\ (b0 = 0xF4 -> b1 <= 0x8F))
    as (Hb1' & Hlow & Hhigh).
  { destruct (Z.eqb_spec b0 0xF0); [apply between_spec in Hb1; lia|].
    destruct (Z.eqb_spec b0 0xF4); apply between_spec in Hb1; lia. }
  rewrite ReadUTF8Char_4 by done. cbn [fst snd forallb flat_map Nat.sub]. rewrite ?skipn_cons, ?drop_0.
  destruct (IH r3) as [-> ->]; [lia|done|]. by rewrite AppendUTF8Value_4.
Qed.

(** * The canonicalizers *)

(** What is written for the characters of a repair. *)
Lemma utf8_of_repaired (enc : UTF.encoding) (src : list Z) (chars : list (bool * Z)) :
  UTF.repaired enc src chars ->
  flat_map (fun c => UTF.AppendUTF8Value c.2) chars = UTF.utf8_of chars
  /\ flat_map UTF.AppendUTF8Value chars.*2 = UTF.utf8_of chars
  /\ flat_map UTF.AppendUTF16Value chars.*2 = UTF.utf16_of chars.
Proof.
  unfold UTF.utf8_of, UTF.utf16_of.
  induction 1 as [|cp rest chars _ _ (IH1 & IH2 & IH3)|u rest chars _ _ (IH1 & IH2 & IH3)];
    [done| |]; cbn [flat_map fmap list_fmap fst snd]; by rewrite IH1, IH2, IH3.
Qed.

Lemma valid_utf8_of_repaired (enc : UTF.encoding) (src : list Z)
    (chars : list (bool * Z)) :
  UTF.repaired enc src chars -> UTF.valid_utf8 (UTF.utf8_of chars) = true.
Proof.
  intros Hrepaired. destruct (utf8_of_repaired _ _ _ Hrepaired) as (<- & _ & _).
  rewrite <- (app_nil_r (flat_map _ chars)).
  rewrite valid_utf8_encoded; [done|]. by apply (repaired_scalar enc src).
Qed.

(** C4. For every input, in either encoding, the text that [CanonicalizeRef]
    appends is [#] followed by the repair of the fragment written as UTF-8:
    its characters in order, every well-formed one written as UTF-8 (for
    UTF-8 input these are the bytes it had), and every code unit at which no
    well-formed character starts replaced by U+FFFD, [EF BF BD].  The repair
    leaves no choice, the text passes the UTF-8 validator, and the call
    reports success exactly when nothing was replaced.  An absent fragment
    appends nothing. *)
Theorem CanonicalizeRef_appends_valid_utf8 (enc : UTF.encoding) (spec : list Z)
    (ref : url_parse.Component) (output : list Z) :
  (url_parse.is_present ref = false ->
   url_canon.CanonicalizeRef enc spec ref output = (true, output, url_parse.absent))
  /\ (url_parse.is_present ref = true ->
      exists chars : list (bool * Z),
        UTF.repaired enc (url_parse.slice spec ref) chars
        /\ (forall chars', UTF.repaired enc (url_parse.slice spec ref) chars' ->
              chars' = chars)
        /\ url_canon.CanonicalizeRef enc spec ref output
           = (forallb fst chars, output ++ 35 :: UTF.utf8_of chars,
              url_parse.mkComponent (url_canon.position output + 1)
                (url_canon.position (UTF.utf8_of chars)))
        /\ UTF.valid_utf8 (35 :: UTF.utf8_of chars) = true
        /\ (forallb fst chars = false ->
            exists before after,
              chars = before ++ (false, UTF.kUnicodeReplacementCharacter) :: after
              /\ UTF.utf8_of chars
                 = UTF.utf8_of before ++ [0xEF; 0xBF; 0xBD] ++ UTF.utf8_of after)
        /\ (enc = UTF.UTF8 -> UTF.valid_utf8 (url_parse.slice spec ref) = true ->
            forallb fst chars = true
            /\ UTF.utf8_of chars = url_parse.slice spec ref)).
Proof.
  unfold url_canon.CanonicalizeRef. split; [by intros ->|]. intros ->.
  set (src := url_parse.slice spec ref).
  pose proof (decode_repaired enc src) as Hrepaired.
  destruct (utf8_of_repaired _ _ _ Hrepaired) as (Htext & _ & _).
  exists (UTF.decode enc src).
  split; [done|]. split; [intros chars' Hchars'; by apply repaired_decode|].
  split; [by rewrite Htext|]. split; [|split].
  - cbn [UTF.valid_utf8]. rewrite (between_true 0 0x7F) by lia.
    by apply (valid_utf8_of_repaired enc src).
  - intros Hfailed. unfold UTF.decode in *.
    apply decode_invalid, list_elem_of_split in Hfailed.
    destruct Hfailed as (before & after & Hsplit). exists before, after.
    split; [done|]. rewrite Hsplit. unfold UTF.utf8_of. by rewrite flat_map_app.
  - intros -> Hvalid. rewrite <- Htext.
    by apply (decode_valid_utf8 _ _ (le_n _)).
Qed.


(** C6. A base without a non-empty path, or a base that is not a file URL and
    has no non-empty host, cannot be resolved against:
    [ResolveRelativeURL] reports failure, and its output is the base URL, with
    the parsed components of the base. *)
Theorem ResolveRelativeURL_base_without_path_or_host
    (resolve : list Z -> url_parse.Parsed -> bool -> list Z -> url_parse.Component
               -> list Z -> bool * list Z * url_parse.Parsed)
    (base_url : list Z) (base_parsed : url_parse.Parsed) (base_is_file : bool)
    (relative_url : list Z) (relative_component : url_parse.Component) :
  url_parse.is_nonempty (url_parse.path base_parsed) = false
  \/ (base_is_file = false
      /\ url_parse.is_nonempty (url_parse.host base_parsed) = false) ->
  url_canon.ResolveRelativeURL resolve base_url base_parsed base_is_file
    relative_url relative_component []
  = (false, base_url, base_parsed)
  /\ forall output,
       url_canon.ResolveRelativeURL resolve base_url base_parsed base_is_file
         relative_url relative_component output
       = (false, output ++ base_url, base_parsed).
Proof.
  intros Hbase.
  assert (url_parse.is_nonempty (url_parse.path base_parsed)
          && (base_is_file || url_parse.is_nonempty (url_parse.host base_parsed))
          = false) as Hcheck.
  { destruct Hbase as [->|[-> ->]]; [done|]. apply andb_false_r. }
  unfold url_canon.ResolveRelativeURL. rewrite Hcheck. done.
Qed.

(** C7. [ReplacePathURL] takes the scheme and the path from the replacements
    and nothing else: the result for any replacement set is the result for the
    set that keeps its scheme and path pointers and has [NULL] everywhere
    else. *)
Theorem ReplacePathURL_applies_scheme_and_path_only (base : list Z)
    (base_parsed : url_parse.Parsed) (replacements : URLComponentSource.t Z)
    (output : list Z) :
  url_canon.ReplacePathURL base base_parsed replacements output
  = url_canon.ReplacePathURL base base_parsed
      (URLComponentSource.mk (URLComponentSource.scheme replacements) None None None None
         (URLComponentSource.path replacements) None None)
      output.
Proof.
  unfold url_canon.ReplacePathURL, url_canon.SetupOverrideComponents,
    url_canon.DoCanonicalizePathURL.
  cbn [URLComponentSource.scheme URLComponentSource.path url_parse.scheme
       url_parse.path fst snd].
  reflexivity.
Qed.

Lemma ResolveRelativeURL_base_without_path_or_host_witness :
  url_parse.is_nonempty (url_parse.path mailto_parsed) = false
  /\ url_canon.ResolveRelativeURL resolve_keep_base mailto_url mailto_parsed false
       [120] (url_parse.mkComponent 0 1) []
     = (false, mailto_url, mailto_parsed).
Proof.
  split; [reflexivity|].
  apply (ResolveRelativeURL_base_without_path_or_host resolve_keep_base mailto_url
           mailto_parsed false [120] (url_parse.mkComponent 0 1)).
  left. reflexivity.
Defined.

(** The canonicalizers at concrete inputs: a fragment with a stray byte and
    an encoded surrogate, a fragment with a lone surrogate and a surrogate
    pair, and a query with a stray byte. *)
Example CanonicalizeRef_repairs_utf8 :
  url_canon.CanonicalizeRef UTF.UTF8
    [35; 97; 0xFF; 98; 0xC3; 0xA9; 0xED; 0xA0; 0x80] (url_parse.mkComponent 1 8) []
  = (false,
     [35; 97; 0xEF; 0xBF; 0xBD; 98; 0xC3; 0xA9;
      0xEF; 0xBF; 0xBD; 0xEF; 0xBF; 0xBD; 0xEF; 0xBF; 0xBD],
     url_parse.mkComponent 1 16).
Proof. reflexivity. Qed.

Example CanonicalizeRef_repairs_utf16 :
  url_canon.CanonicalizeRef UTF.UTF16
    [0x61; 0xD800; 0x62; 0xD83D; 0xDE00] (url_parse.mkComponent 0 5) []
  = (false, [35; 0x61; 0xEF; 0xBF; 0xBD; 0x62; 0xF0; 0x9F; 0x98; 0x80],
     url_parse.mkComponent 1 9).
Proof. reflexivity. Qed.

Example CanonicalizeQuery_repairs_utf8 :
  url_canon.CanonicalizeQuery (fun b => (b <=? 0x20) || (0x7F <=? b)) UTF.UTF8
    [113; 61; 0xFF] (url_parse.mkComponent 0 3) None []
  = ([63; 113; 61; 37; 69; 70; 37; 66; 70; 37; 66; 68], url_parse.mkComponent 1 11).
Proof. reflexivity. Qed.

(** A UTF-16 query [q=%41] followed by a lone surrogate: the escape is
    decoded and the surrogate replaced. *)
Example CanonicalizeQuery_repairs_utf16 :
  url_canon.CanonicalizeQuery (fun b => (b <=? 0x20) || (0x7F <=? b)) UTF.UTF16
    [113; 61; 37; 52; 49; 0xD800] (url_parse.mkComponent 0 6) None []
  = ([63; 113; 61; 65; 37; 69; 70; 37; 66; 70; 37; 66; 68], url_parse.mkComponent 1 12).
Proof. reflexivity. Qed.

(** Replacing the host of [javascript:x] changes nothing. *)
Example ReplacePathURL_host_is_ignored :
  let base := [106; 97; 118; 97; 115; 99; 114; 105; 112; 116; 58; 120] in
  let parsed :=
    url_parse.mkParsed (url_parse.mkComponent 0 10) url_parse.absent url_parse.absent
      url_parse.absent url_parse.absent (url_parse.mkComponent 11 1)
      url_parse.absent url_parse.absent in
  url_canon.ReplacePathURL base parsed
    (URLComponentSource.mk None None None (Some [104]) None None None None) []
  = url_canon.ReplacePathURL base parsed URLComponentSource.null []
  /\ (url_canon.ReplacePathURL base parsed URLComponentSource.null []).1.2 = base.
Proof. split; reflexivity. Qed.
